(** * Informa-Waze: alert ingestion, deduplication and fan-out

    A shallow embedding of the Go sources [waze.go] (the web/event-stream
    entry point) and of its two bot variants, with the properties of the
    natural-language specification stated and settled on that embedding.

    Conventions.
    - A Go [interface{}] is a [value]: the dynamic type is the constructor.
    - A single-value type assertion [x.(T)] panics on a mismatch; it is a
      [result].  The comma-ok form [x.(T)] with [ok] is an [option].
    - Go [int] is a 64-bit integer, kept as a [Z]; the only arithmetic the
      program does on it (the sum in [countWazers]) has its wrap-around
      written out.
    - Mutexes are omitted: every function below is one critical section or
      a sequence of them, run by one goroutine. *)

From Stdlib Require Import ZArith Floats.PrimFloat Floats.FloatOps Floats.SpecFloat.
From Stdlib Require Import DecimalString.
From stdpp Require Import gmap strings list sorting.

Set Warnings "-register-all".
Open Scope Z_scope.

(** ** Go values and type assertions *)

Inductive value :=
| VNil                                  (* nil interface *)
| VBool (b : bool)                      (* bool *)
| VFloat64 (f : float)                  (* float64 *)
| VString (s : string)                  (* string *)
| VSlice (l : list value)               (* []interface{} *)
| VMap (m : gmap string value)          (* map[string]interface{} *)
| VStringSlice (l : list string)        (* []string *)
| VInt (n : Z).                         (* int *)

Inductive gotype :=
| TBool | TFloat64 | TString | TSlice | TMap | TStringSlice | TInt.

(** A failed single-value type assertion: the run-time panic
    "interface conversion: interface {} is ..., not ...". *)
Inductive panic :=
| InterfaceConversion (got : value) (want : gotype).

Inductive result (A : Type) :=
| Ok (a : A)
| Panic (p : panic).
Arguments Ok {A} a.
Arguments Panic {A} p.

Definition is_ok {A} (r : result A) : bool :=
  match r with Ok _ => true | Panic _ => false end.

Definition assert_string (v : value) : result string :=
  match v with VString s => Ok s | _ => Panic (InterfaceConversion v TString) end.

Definition assert_map (v : value) : result (gmap string value) :=
  match v with VMap m => Ok m | _ => Panic (InterfaceConversion v TMap) end.

Definition assert_slice (v : value) : result (list value) :=
  match v with VSlice l => Ok l | _ => Panic (InterfaceConversion v TSlice) end.

Definition assert_float64 (v : value) : result float :=
  match v with VFloat64 f => Ok f | _ => Panic (InterfaceConversion v TFloat64) end.

(** [v, ok := x.([]string)] and [v, ok := x.(int)] *)
Definition assert_string_slice_ok (v : value) : option (list string) :=
  match v with VStringSlice l => Some l | _ => None end.

Definition assert_int_ok (v : value) : option Z :=
  match v with VInt n => Some n | _ => None end.

(** [m[k]] on a [map[string]interface{}]: the zero value (nil) when absent. *)
Definition index (m : gmap string value) (k : string) : value :=
  default VNil (m !! k).

(** ** Set (type [Set] of the source; the name is reserved in Rocq) *)

Record StrSet := { set_data : gset string }.

Definition Set_Add (item : string) (s : StrSet) : StrSet :=
  {| set_data := {[item]} ∪ set_data s |}.

Definition Set_Remove (item : string) (s : StrSet) : StrSet :=
  {| set_data := set_data s ∖ {[item]} |}.

Definition Set_Has (s : StrSet) (item : string) : bool :=
  bool_decide (item ∈ set_data s).

Definition NewSet (items : list string) : StrSet :=
  foldl (fun set item => Set_Add item set) {| set_data := ∅ |} items.

(** [Slice] ranges over the map in an unspecified order; [elements] picks
    one.  [var items []string] stays nil when the set is empty. *)
Definition Set_Slice (s : StrSet) : list string := elements (set_data s).

(** ** Counter *)

Record Counter := { count : Z }.

Definition NewCounter (n : Z) : Counter := {| count := n |}.
Definition Counter_Get (c : Counter) : Z := count c.
Definition Counter_Set (n : Z) (c : Counter) : Counter := {| count := n |}.

(** ** JSON documents and encoding/json *)

Inductive json :=
| JNull
| JBool (b : bool)
| JNumber (f : float)
| JString (s : string)
| JArray (l : list json)
| JObject (l : list (string * json)).

(** Decoding into an [interface{}]: bool, float64, string, []interface{},
    map[string]interface{} and nil.  A repeated key keeps its last value. *)
Fixpoint decode_value (j : json) : value :=
  match j with
  | JNull => VNil
  | JBool b => VBool b
  | JNumber f => VFloat64 f
  | JString s => VString s
  | JArray l => VSlice (List.map decode_value l)
  | JObject l =>
      VMap ((fix members (l : list (string * json)) (acc : gmap string value) :=
               match l with
               | [] => acc
               | (k, j') :: l' => members l' (<[k := decode_value j']> acc)
               end) l ∅)
  end.

Definition decode_members (l : list (string * json)) (acc : gmap string value)
  : gmap string value :=
  foldl (fun acc kv => <[kv.1 := decode_value kv.2]> acc) acc l.

(** [int] to the float64 the text of the integer parses to. *)
Definition float64_of_int (n : Z) : float :=
  if n <? 0 then (- (SF2Prim (binary_normalize prec emax (- n) 0 false)))%float
  else SF2Prim (binary_normalize prec emax n 0 false).

Definition float64_finite (f : float) : bool :=
  negb (is_nan f) && negb (is_infinity f).

(** Encoding of an [interface{}]; NaN and the infinities are unsupported
    values.  A nil slice encodes as [null]. *)
Fixpoint encode_value (v : value) : option json :=
  match v with
  | VNil => Some JNull
  | VBool b => Some (JBool b)
  | VFloat64 f => if float64_finite f then Some (JNumber f) else None
  | VString s => Some (JString s)
  | VSlice l =>
      JArray <$> ((fix elems (l : list value) : option (list json) :=
                     match l with
                     | [] => Some []
                     | v' :: l' =>
                         match encode_value v', elems l' with
                         | Some j, Some js => Some (j :: js)
                         | _, _ => None
                         end
                     end) l)
  | VMap m =>
      JObject <$> map_fold (fun k v' acc =>
                              match encode_value v', acc with
                              | Some j, Some js => Some ((k, j) :: js)
                              | _, _ => None
                              end) (Some []) m
  | VStringSlice l =>
      match l with
      | [] => Some JNull
      | _ => Some (JArray (List.map JString l))
      end
  | VInt n => Some (JNumber (float64_of_int n))
  end.

(** ** Database: the snapshot file [db.json] *)

(** What [json.NewDecoder(file).Decode] finds in a file: one JSON value, or
    bytes that are not one (a syntax error, an empty file). *)
Inductive file :=
| Undecodable
| Document (j : json).

(** The files by name; [writable] is whether [os.Create] succeeds. *)
Record filesystem := { files : gmap string file; writable : bool }.

Record Database := { filename : string; db_data : gmap string value }.

Definition NewDatabase (name : string) : Database :=
  {| filename := name; db_data := ∅ |}.

(** [Decode(&db.data)]: an object stores its members into the existing map,
    [null] sets the map to nil, any other value is an UnmarshalTypeError and
    leaves the map as it was. *)
Definition Database_load (db : Database) (fs : filesystem) : Database * list string :=
  match files fs !! filename db with
  | None => (db, ["ERROR: can't open database file"])
  | Some Undecodable => (db, ["ERROR: can't decode database file"])
  | Some (Document (JObject l)) =>
      ({| filename := filename db; db_data := decode_members l (db_data db) |}, [])
  | Some (Document JNull) => ({| filename := filename db; db_data := ∅ |}, [])
  | Some (Document _) => (db, ["ERROR: can't decode database file"])
  end.

(** [os.Create] truncates the file; [Encode] writes only a complete value. *)
Definition Database_save (db : Database) (fs : filesystem) : filesystem * list string :=
  if writable fs then
    match encode_value (VMap (db_data db)) with
    | Some j =>
        ({| files := <[filename db := Document j]> (files fs); writable := true |}, [])
    | None =>
        ({| files := <[filename db := Undecodable]> (files fs); writable := true |},
         ["ERROR: can't encode database file"])
    end
  else (fs, ["ERROR: can't create database file"]).

Definition GetProcessedAlerts (db : Database) (fs : filesystem)
  : StrSet * Database * list string :=
  let '(db', logs) := Database_load db fs in
  let alerts :=
    match assert_string_slice_ok (index (db_data db') "processedAlerts") with
    | Some alerts => alerts
    | None => []
    end in
  (NewSet alerts, db', logs).

Definition GetMaxWazersOnline (db : Database) (fs : filesystem)
  : Counter * Database * list string :=
  let '(db', logs) := Database_load db fs in
  let n :=
    match assert_int_ok (index (db_data db') "maxWazersOnline") with
    | Some n => n
    | None => 0
    end in
  (NewCounter n, db', logs).

Definition SetProcessedAlerts (alerts : StrSet) (db : Database) (fs : filesystem)
  : Database * filesystem * list string :=
  let db' := {| filename := filename db;
                db_data := <["processedAlerts" := VStringSlice (Set_Slice alerts)]> (db_data db) |} in
  let '(fs', logs) := Database_save db' fs in
  (db', fs', logs).

Definition SetMaxWazersOnline (c : Counter) (db : Database) (fs : filesystem)
  : Database * filesystem * list string :=
  let db' := {| filename := filename db;
                db_data := <["maxWazersOnline" := VInt (Counter_Get c)]> (db_data db) |} in
  let '(fs', logs) := Database_save db' fs in
  (db', fs', logs).

(** The package-level initialisers of every entry point:
    [db = NewDatabase("db.json")], [processedAlerts = db.GetProcessedAlerts()],
    [maxWazersOnline = db.GetMaxWazersOnline()]. *)
Definition startup (fs : filesystem) : StrSet * Counter :=
  let db := NewDatabase "db.json" in
  let '(processedAlerts, db, _) := GetProcessedAlerts db fs in
  let '(maxWazersOnline, _, _) := GetMaxWazersOnline db fs in
  (processedAlerts, maxWazersOnline).

(** A snapshot as the two setters write it, starting from a new database. *)
Definition write_snapshot (alerts : StrSet) (c : Counter) (fs : filesystem) : filesystem :=
  let db := NewDatabase "db.json" in
  let '(db, fs, _) := SetProcessedAlerts alerts db fs in
  let '(_, fs, _) := SetMaxWazersOnline c db fs in
  fs.

(** What a value reads back as once it went through the file. *)
Definition reread (v : value) : value :=
  match encode_value v with
  | Some j => decode_value j
  | None => VNil
  end.

(** ** Package time

    An instant is its count of nanoseconds since the Unix epoch together
    with the zone it is shown in; a zone is a fixed offset in seconds east
    of UTC (zone transitions are not modelled).  Days have 86400 seconds
    (package time has no leap seconds), so the calendar fields Year, Month
    and Day are carried as one number, the local day since the epoch. *)

Record Time := { unixNano : Z; Location : Z }.

Definition second_ns : Z := 1000000000.
Definition Minute_ns : Z := 60 * second_ns.          (* time.Minute *)

Definition local_sec (t : Time) : Z := unixNano t / second_ns + Location t.

Definition Time_Date (t : Time) : Z := local_sec t / 86400.   (* Year, Month, Day *)
Definition Time_Hour (t : Time) : Z := (local_sec t mod 86400) / 3600.
Definition Time_Minute (t : Time) : Z := (local_sec t mod 3600) / 60.
Definition Time_Second (t : Time) : Z := local_sec t mod 60.
Definition Time_Nanosecond (t : Time) : Z := unixNano t mod second_ns.

Definition Time_Add (t : Time) (d : Z) : Time :=
  {| unixNano := unixNano t + d; Location := Location t |}.

Definition Time_Sub (t u : Time) : Z := unixNano t - unixNano u.

(** [time.Date(year, month, day, hour, min, sec, nsec, loc)] *)
Definition time_Date (date hour min sec nsec : Z) (loc : Z) : Time :=
  {| unixNano := (date * 86400 + hour * 3600 + min * 60 + sec - loc) * second_ns + nsec;
     Location := loc |}.

(** *** fmt and Format *)

Definition digit (d : Z) : string :=
  String (Ascii.ascii_of_N (Z.to_N (48 + d))) EmptyString.

(** [%02d] on a value in 0..99 *)
Definition fmt_02d (n : Z) : string := digit (n / 10) +:+ digit (n mod 10).

(** [%d] *)
Definition fmt_d (n : Z) : string := NilZero.string_of_int (Z.to_int n).

(** [t.Format("15:04:05")] *)
Definition Time_Format (t : Time) : string :=
  fmt_02d (Time_Hour t) +:+ ":" +:+ fmt_02d (Time_Minute t) +:+ ":" +:+ fmt_02d (Time_Second t).

(** ** scheduleJob

    [next_tick] is the body of the loop up to the timer: the instant the
    task sleeps until and the duration it hands to [time.NewTimer]. *)

Definition next_tick (now : Time) : Time * Z :=
  let next := Time_Add now (1 * Minute_ns) in
  let next := time_Date (Time_Date next) (Time_Hour next) (Time_Minute next) 0 0
                        (Location next) in
  (next, Time_Sub next now).

(** One round of the loop reads the clock, sleeps until the timer fires and
    runs the job.  The timer fires [late >= 0] nanoseconds after its
    duration has elapsed and the job returns [took >= 0] nanoseconds later;
    the rounds are driven by the list of these pairs.  The result lists,
    per round, the instant the round started, the instant slept until and
    the instant the job started. *)
Fixpoint scheduleJob (rounds : list (Z * Z)) (now : Time) : list (Time * Time * Time) :=
  match rounds with
  | [] => []
  | (late, took) :: rounds' =>
      let '(next, d) := next_tick now in
      let fired := Time_Add now (d + late) in
      (now, next, fired) :: scheduleJob rounds' (Time_Add fired took)
  end.

(** ** Sequential code with state and panics

    A function that mutates package-level state and may panic maps the
    state to the state it leaves behind and either its result or the panic
    that ended it: what was done before a panic stays done. *)

Definition M (S A : Type) : Type := S -> S * result A.

Definition ret {S A} (a : A) : M S A := fun s => (s, Ok a).

Definition bind {S A B} (m : M S A) (k : A -> M S B) : M S B :=
  fun s => match m s with
           | (s', Ok a) => k a s'
           | (s', Panic p) => (s', Panic p)
           end.

Definition lift {S A} (r : result A) : M S A := fun s => (s, r).

Definition modify {S} (f : S -> S) : M S unit := fun s => (f s, Ok tt).

Definition gets {S A} (f : S -> A) : M S A := fun s => (s, Ok (f s)).

Declare Scope go_scope.
Delimit Scope go_scope with go.
Notation "x <- m ;; k" := (bind m (fun x => k))
  (at level 20, m at level 99, k at level 200, only parsing) : go_scope.
Notation "m ;; k" := (bind m (fun _ => k))
  (at level 100, k at level 200, only parsing, right associativity) : go_scope.

(** [for _, x := range l { body }] over a slice *)
Fixpoint for_range {S A} (l : list A) (body : A -> M S unit) : M S unit :=
  match l with
  | [] => ret tt
  | x :: l' => (body x ;; for_range l' body)%go
  end.

Definition rbind {A B} (r : result A) (k : A -> result B) : result B :=
  match r with Ok a => k a | Panic p => Panic p end.

Notation "x <~ r ;; k" := (rbind r (fun x => k))
  (at level 20, r at level 99, k at level 200, only parsing) : go_scope.

(** ** The ingestion state and what a run does to it *)

Inductive event :=
| Logged (msg : string)                   (* logger(msg) *)
| Sent (alert : gmap string value)        (* alertsCh <- alertData *)
| Spawned (alert : value)                 (* go handleAlert(alert) *)
| Added (id : string).                    (* processedAlerts.Add(alertID) *)

Record pipeline := { processedAlerts : StrSet; trace : list event }.

Definition record (e : event) (st : pipeline) : pipeline :=
  {| processedAlerts := processedAlerts st; trace := trace st ++ [e] |}.

Definition logger (msg : string) : M pipeline unit := modify (record (Logged msg)).

Definition Has (id : string) : M pipeline bool :=
  gets (fun st => Set_Has (processedAlerts st) id).

Definition Add (id : string) : M pipeline unit :=
  modify (fun st => record (Added id)
                      {| processedAlerts := Set_Add id (processedAlerts st);
                         trace := trace st |}).

(** What a handler writes: [sendMessage(text)] and [fmt.Println(...)] *)
Inductive output :=
| Message (text : string)
| Printed (line : string).

Definition nl : string := String (Ascii.ascii_of_nat 10) EmptyString.

(** What [http.Get] and [json.NewDecoder(resp.Body).Decode(&data)] find:
    the request fails, or there is a body, decoded like a file. *)
Inductive http_result :=
| GetError
| Response (body : file).

(** [var data map[string]interface{}] followed by [Decode(&data)]: an
    object fills a new map, [null] leaves the nil map, anything else is an
    error. *)
Definition decode_response (body : file) : option (gmap string value) :=
  match body with
  | Document (JObject l) => Some (decode_members l ∅)
  | Document JNull => Some ∅
  | _ => None
  end.

(** ** waze.go *)

Module Waze.

Record Filters := {
  ChitChat : bool; Police : bool; Jam : bool; Accident : bool; Unknown : bool }.

(** What a handler reads besides its argument: the clock ([time.Now()])
    and the order in which [range] runs over the alert's map. *)
Record env := { now : Time; range : gmap string value -> list (string * value) }.

Section Rendering.

(** The [%v] verb of package fmt. *)
Variable fmt_v : value -> string.

Definition formatAlertData (entries : list (string * value)) : string :=
  foldl (fun sb kv => sb +:+ (kv.1 +:+ ": " +:+ fmt_v kv.2 +:+ nl)) "" entries.

Definition handleChitChat (e : env) (alert : gmap string value) : result string :=
  (reportBy <~ assert_string (index alert "reportBy") ;;
   location <~ assert_string (index alert "location") ;;
   Ok ("[" +:+ Time_Format (now e) +:+ "] 📢 " +:+ reportBy
       +:+ " deixou um comentário no mapa 💭" +:+ nl
       +:+ "Análise 🗺️: " +:+ location))%go.

Definition handlePoliceAlert (e : env) (alert : gmap string value) : string :=
  let info := formatAlertData (range e alert) in
  "[" +:+ Time_Format (now e) +:+ "] 📢 Polícia &#128660;" +:+ nl
  +:+ "```" +:+ info +:+ "```".

Definition handleJamAlert (e : env) (alert : gmap string value) : string :=
  let info := formatAlertData (range e alert) in
  "[" +:+ Time_Format (now e) +:+ "] 📢 Congestionamento 🚗🚕🚙" +:+ nl
  +:+ "```" +:+ info +:+ "```".

Definition handleAccidentAlert (e : env) (alert : gmap string value) : string :=
  let info := formatAlertData (range e alert) in
  "[" +:+ Time_Format (now e) +:+ "] 📢 Acidente 🚙💥🚕" +:+ nl
  +:+ "```" +:+ info +:+ "```".

Definition handleUnknownAlert (e : env) (alert : gmap string value) : string :=
  let info := formatAlertData (range e alert) in
  "[" +:+ Time_Format (now e) +:+ "] 🤖 Tipo de notificação desconhecida" +:+ nl
  +:+ "```" +:+ info +:+ "```".

(** The body of the loop over [alerts] in [handleEvents]: the message
    for one alert, empty when its filter is off. *)
Definition render (filters : Filters) (e : env) (alert : gmap string value)
  : result string :=
  (eventType <~ assert_string (index alert "type") ;;
   if String.eqb eventType "CHIT_CHAT" then
     if ChitChat filters then handleChitChat e alert else Ok ""
   else if String.eqb eventType "POLICE" || String.eqb eventType "POLICEMAN" then
     if Police filters then Ok (handlePoliceAlert e alert) else Ok ""
   else if String.eqb eventType "JAM" then
     if Jam filters then Ok (handleJamAlert e alert) else Ok ""
   else if String.eqb eventType "ACCIDENT" then
     if Accident filters then Ok (handleAccidentAlert e alert) else Ok ""
   else
     if Unknown filters then Ok (handleUnknownAlert e alert) else Ok "")%go.

(** [case <-client:] of [handleEvents]: every alert of the log is
    rendered again and the non-empty messages are written to the
    stream.  The state is what has been written; [clock] gives the
    environment read at each alert. *)
Fixpoint send_events (filters : Filters) (clock : nat -> env) (i : nat)
    (alerts : list (gmap string value)) : M (list string) unit :=
  match alerts with
  | [] => ret tt
  | alert :: alerts' =>
      (message <- lift (render filters (clock i) alert) ;;
       (if String.eqb message "" then ret tt
        else modify (fun w => w ++ ["data: " +:+ message +:+ nl +:+ nl])) ;;
       send_events filters clock (S i) alerts')%go
  end.

End Rendering.

Definition send (alertData : gmap string value) : M pipeline unit :=
  modify (record (Sent alertData)).

Definition processAlerts (alerts : list value) : M pipeline unit :=
  (logger "processando alertas" ;;
   for_range alerts (fun alert =>
     alertData <- lift (assert_map alert) ;;
     alertID <- lift (assert_string (index alertData "uuid")) ;;
     has <- Has alertID ;;
     if negb has then
       (send alertData ;;
        Add alertID)
     else ret tt))%go.

(** *** The fan-out loop of [main] and the subscribers of [handleEvents]

    A [chan struct{}] is its capacity and the number of elements queued.
    A send completes when there is room; on a full channel the sender
    blocks until a receive makes room (a receiver parked on an empty
    channel takes the element at once, which is a send followed by a
    receive).  [None] is "the operation blocks". *)

Record chan := { cap : nat; queued : nat }.

Definition make_chan (n : nat) : chan := {| cap := n; queued := 0 |}.

Definition chan_send (c : chan) : option chan :=
  if (queued c <? cap c)%nat then Some {| cap := cap c; queued := S (queued c) |}
  else None.

Definition chan_recv (c : chan) : option chan :=
  match queued c with
  | O => None
  | S n => Some {| cap := cap c; queued := n |}
  end.

(** [alerts] is the log, [clients] the registered subscribers, each with
    its wake channel. *)
Record hub := { alerts : list (gmap string value); clients : gmap nat chan }.

Inductive progress :=
| Completed (h : hub)
| BlockedOn (client : nat) (h : hub).

(** [for client := range clients { client <- struct{}{} }], the clients
    taken in the order [cs]. *)
Fixpoint wake (cs : list nat) (h : hub) : progress :=
  match cs with
  | [] => Completed h
  | c :: cs' =>
      match clients h !! c with
      | None => wake cs' h
      | Some ch =>
          match chan_send ch with
          | Some ch' => wake cs' {| alerts := alerts h; clients := <[c := ch']> (clients h) |}
          | None => BlockedOn c h
          end
      end
  end.

(** One round of [for alert := range alertsCh]: append to the log, then
    wake the clients in the order [cs] that [range] runs over them. *)
Definition fan_out (alert : gmap string value) (cs : list nat) (h : hub) : progress :=
  wake cs {| alerts := alerts h ++ [alert]; clients := clients h |}.

(** [main] receiving what was sent on [alertsCh], in order; [order]
    is how [range] runs over the clients at each round.  The loop stops
    at the first send that blocks. *)
Fixpoint main_loop (alertsCh : list (gmap string value))
    (order : gmap nat chan -> list nat) (h : hub) : progress :=
  match alertsCh with
  | [] => Completed h
  | alert :: rest =>
      match fan_out alert (order (clients h)) h with
      | Completed h' => main_loop rest order h'
      | BlockedOn c h' => BlockedOn c h'
      end
  end.

(** [handleEvents]: registration, the deferred deregistration and the
    receive of [case <-client:]. *)
Definition subscribe (client : nat) (h : hub) : hub :=
  {| alerts := alerts h; clients := <[client := make_chan 1]> (clients h) |}.

Definition unsubscribe (client : nat) (h : hub) : hub :=
  {| alerts := alerts h; clients := delete client (clients h) |}.

Definition receive_wake (client : nat) (h : hub) : option hub :=
  ch ← clients h !! client;
  ch' ← chan_recv ch;
  Some {| alerts := alerts h; clients := <[client := ch']> (clients h) |}.

(** [getUpdates].  The state is the ingestion state together with what the
    cache holds under "wazeData" ([None] when nothing is there or it has
    expired). *)
Definition on_pipeline {A C} (m : M pipeline A) : M (pipeline * C) A :=
  fun s => let '(st, r) := m s.1 in ((st, s.2), r).

Definition getUpdates (resp : http_result) : M (pipeline * option value) unit :=
  (on_pipeline (logger "getting updates") ;;
   cached <- gets snd ;;
   match cached with
   | Some data =>
       alerts <- lift (assert_slice data) ;;
       on_pipeline (processAlerts alerts)
   | None =>
       match resp with
       | GetError => on_pipeline (logger "ERROR: can't get updates")
       | Response body =>
           match decode_response body with
           | None => on_pipeline (logger "ERROR: can't decode response")
           | Some data =>
               match data !! "alerts" with
               | None => on_pipeline (logger "ERROR: 'alerts' key not found in data")
               | Some v =>
                   alerts <- lift (assert_slice v) ;;
                   modify (fun s => (s.1, Some (VSlice alerts))) ;;
                   alerts <- lift (assert_slice v) ;;
                   on_pipeline (processAlerts alerts)
               end
           end
       end
   end)%go.

End Waze.


(** The alerts sent on [alertsCh], in order. *)
Definition sent_alerts (tr : list event) : list (gmap string value) :=
  omap (fun e => match e with Sent a => Some a | _ => None end) tr.

(** ** The bot entry point *)

Module Bot.

Section Rendering.

Variable fmt_v : value -> string.

Definition formatAlertData (entries : list (string * value)) : string :=
  foldl (fun sb kv => sb +:+ (kv.1 +:+ ": " +:+ fmt_v kv.2 +:+ nl)) "" entries.

Definition handleChitChat (alert : gmap string value) : result (list output) :=
  (reportBy <~ assert_string (index alert "reportBy") ;;
   location <~ assert_string (index alert "location") ;;
   let message := "📢 " +:+ reportBy +:+ " deixou um comentário no mapa 💭" +:+ nl
                  +:+ "Análise 🗺️: " +:+ location in
   Ok [Message message; Printed ("ChitChat Alert: " +:+ message)])%go.

Definition handlePoliceAlert (alert : gmap string value) : list output :=
  [Message "📢 Polícia 🚓"].

Definition handleJamAlert (alert : gmap string value) : list output :=
  let message := "📢 Congestionamento 🚗🚕🚙" in
  [Message message; Printed ("Jam Alert: " +:+ message)].

Definition handleAccidentAlert (alert : gmap string value) : list output :=
  [Message "📢 Acidente 🚙💥🚕"].

Definition handleUnknownAlert (entries : list (string * value)) : list output :=
  let info := formatAlertData entries in
  let message := "🤖 Tipo de notificação desconhecida" +:+ nl
                 +:+ "```" +:+ info +:+ "```" in
  [Message message].

(** [range] is the order in which [formatAlertData] runs over the map. *)
Definition handleAlert (range : gmap string value -> list (string * value))
    (alert : value) : result (list output) :=
  (alertData <~ assert_map alert ;;
   alertType <~ assert_string (index alertData "type") ;;
   if String.eqb alertType "CHIT_CHAT" then handleChitChat alertData
   else if String.eqb alertType "POLICE" || String.eqb alertType "POLICEMAN" then
     Ok (handlePoliceAlert alertData)
   else if String.eqb alertType "JAM" then Ok (handleJamAlert alertData)
   else if String.eqb alertType "ACCIDENT" then Ok (handleAccidentAlert alertData)
   else Ok (handleUnknownAlert (range alertData)))%go.

End Rendering.

Definition spawn (alert : value) : M pipeline unit :=
  modify (record (Spawned alert)).

Definition processAlerts (alerts : list value) : M pipeline unit :=
  (logger "processando alertas" ;;
   for_range alerts (fun alert =>
     alertID <- lift (alertData <~ assert_map alert ;;
                      assert_string (index alertData "uuid")) ;;
     has <- Has alertID ;;
     if negb has then
       (spawn alert ;;
        Add alertID)
     else ret tt))%go.

Definition getUpdates (resp : http_result) : M pipeline unit :=
  (logger "getting updates" ;;
   match resp with
   | GetError => logger "ERROR: can't get updates"
   | Response body =>
       match decode_response body with
       | None => logger "ERROR: can't decode response"
       | Some data =>
           match data !! "alerts" with
           | None => logger "ERROR: 'alerts' key not found in data"
           | Some v =>
               alerts <- lift (assert_slice v) ;;
               processAlerts alerts
           end
       end
   end)%go.

Definition processData (data : gmap string value) : M pipeline unit :=
  match data !! "alerts" with
  | Some (VSlice alerts) => processAlerts alerts
  | _ => logger "ERROR: 'alerts' key not found or is not an array in data"
  end.

End Bot.

(** ** The channel entry point

    Its [processAlerts] is, word for word, that of the bot. *)

Module Channel.

Section Fetching.

(** The [%v] verb of package fmt on the decoded response. *)
Variable fmt_v : value -> string.

Definition processData (data : gmap string value) : M pipeline unit :=
  match data !! "alerts" with
  | Some (VSlice alerts) => Bot.processAlerts alerts
  | Some _ => ret tt
  | None => logger "Nenhum alerta recebido"
  end.

Definition getUpdates (resp : http_result) : M pipeline unit :=
  (logger "recebendo atualizações" ;;
   match resp with
   | GetError => logger "ERRO: não foi possível receber atualizações"
   | Response body =>
       match decode_response body with
       | None => logger "ERRO: não foi possível receber respostas"
       | Some data =>
           logger ("Dados recebidos: " +:+ fmt_v (VMap data)) ;;
           processData data
       end
   end)%go.

End Fetching.

End Channel.

(** The alerts handed to [go handleAlert], in order. *)
Definition spawned_alerts (tr : list event) : list value :=
  omap (fun e => match e with Spawned a => Some a | _ => None end) tr.

(** ** countWazers and sendWazersReport *)

Definition min_int64 : Z := - 2 ^ 63.
Definition max_int64 : Z := 2 ^ 63 - 1.

(** 64-bit signed wrap-around *)
Definition wrap64 (z : Z) : Z := (z - min_int64) mod 2 ^ 64 + min_int64.

(** [int(f)]: truncation toward zero.  The conversion of a value that does
    not fit is left to the implementation by the language; amd64 yields the
    smallest integer, taken here. *)
Definition int_of_float64 (f : float) : Z :=
  match Prim2SF f with
  | S754_zero _ => 0
  | S754_finite s m e =>
      let mag := if 0 <=? e then Z.shiftl (Z.pos m) e else Z.shiftr (Z.pos m) (- e) in
      let v := if s then - mag else mag in
      if (min_int64 <=? v) && (v <=? max_int64) then v else min_int64
  | _ => min_int64
  end.

(** The loop of [countWazers] over [data["usersOnJams"]]. *)
Fixpoint sum_wazers (usersOnJams : list value) (actualWazersOnline : Z) : result Z :=
  match usersOnJams with
  | [] => Ok actualWazersOnline
  | jam :: rest =>
      (m <~ assert_map jam ;;
       wazersCount <~ assert_float64 (index m "wazersCount") ;;
       sum_wazers rest (wrap64 (actualWazersOnline + int_of_float64 wazersCount)))%go
  end.

(** The end of [countWazers]: the sample is stored only when it is greater
    than the stored value. *)
Definition observe (actualWazersOnline : Z) (maxWazersOnline : Counter) : Counter :=
  if actualWazersOnline >? Counter_Get maxWazersOnline
  then Counter_Set actualWazersOnline maxWazersOnline
  else maxWazersOnline.

(** [countWazers] from the decoded response on; the state is the counter. *)
Definition countWazers (data : gmap string value) : M Counter unit :=
  (usersOnJams <- lift (assert_slice (index data "usersOnJams")) ;;
   actualWazersOnline <- lift (sum_wazers usersOnJams 0) ;;
   modify (observe actualWazersOnline))%go.

Definition sendWazersReport (maxWazersOnline : Counter) : list output * Counter :=
  let maxWazers := Counter_Get maxWazersOnline in
  if maxWazers >? 0 then
    ([Message (fmt_d maxWazers +:+ " wazers conectados 🚙 🚕 🚚")],
     Counter_Set 0 maxWazersOnline)
  else ([], maxWazersOnline).

(** [countWazers] from the request on.  The result is what it logs when
    it returns. *)
Definition countWazers_job (resp : http_result) : M Counter (list string) :=
  match resp with
  | GetError => ret ["contando motoristas"; "ERROR: can't count wazers"]
  | Response body =>
      match decode_response body with
      | None => ret ["contando motoristas"; "ERROR: can't decode response"]
      | Some data => (countWazers data ;; ret ["contando motoristas"])%go
      end
  end.

(** ** The loop of [processAlerts], in both entry points *)

Section Loop.

(** The event of the dispatch: [Sent] in waze.go, [Spawned] in the bot. *)
Variable disp : gmap string value -> event.

(** The loop body of [processAlerts], case by case. *)
Definition step (alert : value) (st : pipeline) : pipeline * result unit :=
  match alert with
  | VMap m =>
      match index m "uuid" with
      | VString id =>
          if Set_Has (processedAlerts st) id then (st, Ok tt)
          else ({| processedAlerts := Set_Add id (processedAlerts st);
                   trace := trace st ++ [disp m; Added id] |}, Ok tt)
      | v => (st, Panic (InterfaceConversion v TString))
      end
  | v => (st, Panic (InterfaceConversion v TMap))
  end.

(** The events of a run of the loop from the set [s] to the set [s']:
    each dispatch is of an alert whose identifier is not in the set and
    is followed at once by the addition of that identifier. *)
Inductive run : gset string -> list event -> gset string -> Prop :=
| run_nil s : run s [] s
| run_new s m id tr s' :
    index m "uuid" = VString id ->
    id ∉ s ->
    run ({[id]} ∪ s) tr s' ->
    run s (disp m :: Added id :: tr) s'.

End Loop.

(** ** Vocabulary of the properties *)

(** The identifier [processAlerts] reads off a record. *)
Definition alert_id (alert : value) : result string :=
  (alertData <~ assert_map alert ;;
   assert_string (index alertData "uuid"))%go.

(** The identifiers of the records of a batch that have one. *)
Definition alert_ids (batch : list value) : gset string :=
  list_to_set (omap (fun alert => match alert_id alert with
                                  | Ok id => Some id
                                  | Panic _ => None
                                  end) batch).

Definition has_id (id : string) (alert : gmap string value) : bool :=
  match index alert "uuid" with
  | VString s => String.eqb s id
  | _ => false
  end.

(** How many times an alert with identifier [id] was sent on [alertsCh]. *)
Definition dispatches (id : string) (tr : list event) : nat :=
  length (List.filter (has_id id) (sent_alerts tr)).

(** [sub] occurs in [s]. *)
Definition contains (s sub : string) : Prop :=
  exists pre post, s = pre +:+ sub +:+ post.

(** The batch of the specification's scenario and the state of a process
    that has ingested nothing and has no subscriber. *)
Definition scenario_batch : list value :=
  [ VMap {[ "uuid" := VString "a1"; "type" := VString "JAM" ]};
    VMap {[ "uuid" := VString "a1"; "type" := VString "JAM" ]};
    VMap {[ "uuid" := VString "a2"; "type" := VString "POLICE" ]} ].

Definition fresh (seen : StrSet) : pipeline := {| processedAlerts := seen; trace := [] |}.

Definition no_subscriber : Waze.hub := {| Waze.alerts := []; Waze.clients := ∅ |}.

(** The wake channel of a subscriber, empty and with a signal pending. *)
Definition slot_empty : Waze.chan := {| Waze.cap := 1; Waze.queued := 0 |}.
Definition slot_pending : Waze.chan := {| Waze.cap := 1; Waze.queued := 1 |}.

(** The identifier a record carries, if it is a string. *)
Definition uuid_of (alert : gmap string value) : option string :=
  match index alert "uuid" with
  | VString id => Some id
  | _ => None
  end.

(** The exact sum of the truncated counts of a list of jams (no wrap). *)
Fixpoint exact_sum (usersOnJams : list value) : Z :=
  match usersOnJams with
  | [] => 0
  | VMap m :: rest =>
      match index m "wazersCount" with
      | VFloat64 f => int_of_float64 f + exact_sum rest
      | _ => exact_sum rest
      end
  | _ :: rest => exact_sum rest
  end.

Definition well_formed_jam (jam : value) : bool :=
  match jam with
  | VMap m => match index m "wazersCount" with VFloat64 _ => true | _ => false end
  | _ => false
  end.

Definition all_on : Waze.Filters :=
  {| Waze.ChitChat := true; Waze.Police := true; Waze.Jam := true;
     Waze.Accident := true; Waze.Unknown := true |}.

Definition all_off : Waze.Filters :=
  {| Waze.ChitChat := false; Waze.Police := false; Waze.Jam := false;
     Waze.Accident := false; Waze.Unknown := false |}.

(** [sent] is what a batch of records with identifiers leaves to dispatch
    for a process that has seen [seen]: the records, in the order of the
    batch, that are the first with their identifier and whose identifier
    is not in [seen]. *)
Definition first_unseen (batch : list (gmap string value)) (seen : gset string)
    (sent : list (gmap string value)) : Prop :=
  sublist sent batch /\
  NoDup (omap uuid_of sent) /\
  (forall id, id ∈ omap uuid_of sent <-> id ∈ omap uuid_of batch /\ id ∉ seen) /\
  (forall m id, m ∈ sent -> uuid_of m = Some id ->
     exists pre post, batch = pre ++ m :: post /\ id ∉ omap uuid_of pre).

(** An alert the switch of [handleEvents] can render: it has a string type
    and, when that is CHIT_CHAT, string reportBy and location. *)
Definition renderable (alert : gmap string value) : Prop :=
  exists ty, alert !! "type" = Some (VString ty) /\
             (ty = "CHIT_CHAT" ->
              exists r l, alert !! "reportBy" = Some (VString r) /\
                          alert !! "location" = Some (VString l)).

(** The state [main] has reached, whether its round completed or it is
    blocked on a send. *)
Definition progress_hub (p : Waze.progress) : Waze.hub :=
  match p with Waze.Completed h => h | Waze.BlockedOn _ h => h end.

(** The instants a task sleeps until, round by round. *)
Definition ticks (rounds : list (Z * Z)) (now : Time) : list Z :=
  (fun x => unixNano x.1.2) <$> scheduleJob rounds now.

(** The greatest sample of a reporting period; 0 when there was none. *)
Definition max_sample (vs : list Z) : Z := foldr Z.max 0 vs.

(** A minute boundary of the wall clock: seconds and fraction are zero. *)
Definition on_minute (t : Time) : Prop := Time_Second t = 0 /\ Time_Nanosecond t = 0.

(** * Properties *)

(** ** The snapshot is never read back *)

Definition json_decoded (v : value) : Prop := exists j, v = decode_value j.

Lemma decode_value_object l : decode_value (JObject l) = VMap (decode_members l ∅).
Proof.
  unfold decode_members. simpl. generalize (∅ : gmap string value).
  induction l as [|[k j] l IH]; intros acc; simpl; [done|]. by rewrite IH.
Qed.

Lemma json_decoded_not_string_slice v :
  json_decoded v -> assert_string_slice_ok v = None.
Proof. intros [j ->]. by destruct j. Qed.

Lemma json_decoded_not_int v : json_decoded v -> assert_int_ok v = None.
Proof. intros [j ->]. by destruct j. Qed.

Lemma decode_members_decoded l acc :
  map_Forall (fun _ v => json_decoded v) acc ->
  map_Forall (fun _ v => json_decoded v) (decode_members l acc).
Proof.
  revert acc. induction l as [|[k j] l IH]; intros acc Hacc; simpl; [done|].
  apply IH. apply map_Forall_insert_2; [by exists j | done].
Qed.

Lemma Database_load_decoded db fs :
  map_Forall (fun _ v => json_decoded v) (db_data db) ->
  map_Forall (fun _ v => json_decoded v) (db_data (Database_load db fs).1).
Proof.
  intros Hdb. unfold Database_load.
  destruct (files fs !! filename db) as [[|j]|]; cbn [fst]; try done.
  destruct j; cbn [fst db_data]; try done.
  by apply decode_members_decoded.
Qed.

Lemma index_decoded m k :
  map_Forall (fun _ v => json_decoded v) m -> json_decoded (index m k).
Proof.
  intros Hm. unfold index. destruct (m !! k) as [v|] eqn:Hk; simpl.
  - by apply (Hm k).
  - by exists JNull.
Qed.

Lemma GetProcessedAlerts_decoded db fs :
  map_Forall (fun _ v => json_decoded v) (db_data db) ->
  (GetProcessedAlerts db fs).1.1 = NewSet [] /\
  map_Forall (fun _ v => json_decoded v) (db_data (GetProcessedAlerts db fs).1.2).
Proof.
  intros Hdb. pose proof (Database_load_decoded db fs Hdb) as Hl.
  unfold GetProcessedAlerts. destruct (Database_load db fs) as [db' logs]. simpl in *.
  by rewrite (json_decoded_not_string_slice _ (index_decoded _ _ Hl)).
Qed.

Lemma GetMaxWazersOnline_decoded db fs :
  map_Forall (fun _ v => json_decoded v) (db_data db) ->
  (GetMaxWazersOnline db fs).1.1 = NewCounter 0.
Proof.
  intros Hdb. pose proof (Database_load_decoded db fs Hdb) as Hl.
  unfold GetMaxWazersOnline. destruct (Database_load db fs) as [db' logs]. simpl in *.
  by rewrite (json_decoded_not_int _ (index_decoded _ _ Hl)).
Qed.

Lemma startup_empty fs : startup fs = (NewSet [], NewCounter 0).
Proof.
  unfold startup.
  pose proof (GetProcessedAlerts_decoded (NewDatabase "db.json") fs) as [Hs Hd].
  { apply map_Forall_empty. }
  destruct (GetProcessedAlerts _ fs) as [[s db1] l1]. simpl in *. subst s.
  pose proof (GetMaxWazersOnline_decoded db1 fs Hd) as Hc.
  destruct (GetMaxWazersOnline db1 fs) as [[c db2] l2]. simpl in *. by subst c.
Qed.

Lemma decode_members_insert_fresh l k v acc :
  k ∉ l.*1 ->
  decode_members l (<[k := v]> acc) = <[k := v]> (decode_members l acc).
Proof.
  revert acc. induction l as [|[k' j] l IH]; intros acc Hk; simpl; [done|].
  rewrite fmap_cons, not_elem_of_cons in Hk. destruct Hk as [Hne Hk]. simpl in Hne.
  rewrite insert_insert_ne by done. by apply IH.
Qed.

Lemma encode_value_map m :
  encode_value (VMap m)
  = JObject <$> map_fold (fun k v acc =>
                            match encode_value v, acc with
                            | Some j, Some js => Some ((k, j) :: js)
                            | _, _ => None
                            end) (Some []) m.
Proof. done. Qed.

(** A map whose values all encode is written as an object that decodes to
    the map of the re-read values. *)
Lemma encode_decode_members m :
  map_Forall (fun _ v => is_Some (encode_value v)) m ->
  exists l, encode_value (VMap m) = Some (JObject l) /\
            decode_members l ∅ = reread <$> m.
Proof.
  rewrite encode_value_map.
  set (f := fun (k : string) (v : value) (acc : option (list (string * json))) =>
              match encode_value v, acc with
              | Some j, Some js => Some ((k, j) :: js)
              | _, _ => None
              end).
  intros Hall.
  cut (exists l, map_fold f (Some []) m = Some l /\
                 (forall k, k ∈ l.*1 -> is_Some (m !! k)) /\
                 decode_members l ∅ = reread <$> m).
  { intros (l & -> & _ & Hl). by exists l. }
  revert Hall.
  apply (map_fold_weak_ind
           (fun r m => map_Forall (fun _ v => is_Some (encode_value v)) m ->
                       exists l, r = Some l /\
                                 (forall k, k ∈ l.*1 -> is_Some (m !! k)) /\
                                 decode_members l ∅ = reread <$> m)).
  - intros _. exists []. split; [done|]. split.
    + intros k Hk. by apply elem_of_nil in Hk.
    + by rewrite fmap_empty.
  - intros k v m' r Hfresh IH Hall.
    apply map_Forall_insert in Hall as [[j Hj] Hall]; [|done].
    destruct (IH Hall) as (l & -> & Hdom & Hl).
    exists ((k, j) :: l). unfold f. rewrite Hj. split; [done|]. split.
    + intros k' Hk'. rewrite fmap_cons, elem_of_cons in Hk'. simpl in Hk'.
      destruct Hk' as [->|Hk'].
      * rewrite lookup_insert_eq. by eexists.
      * destruct (decide (k = k')) as [->|Hne].
        -- rewrite lookup_insert_eq. by eexists.
        -- rewrite lookup_insert_ne by done. by apply Hdom.
    + simpl. rewrite decode_members_insert_fresh.
      * rewrite Hl, fmap_insert. unfold reread at 2. by rewrite Hj.
      * intros Hin. apply Hdom in Hin. rewrite Hfresh in Hin. by destruct Hin.
Qed.

Lemma Database_save_writable db fs :
  writable fs = true -> writable (Database_save db fs).1 = true.
Proof.
  intros Hw. unfold Database_save. rewrite Hw.
  by destruct (encode_value (VMap (db_data db))).
Qed.

Lemma Database_save_encoded db fs j :
  writable fs = true ->
  encode_value (VMap (db_data db)) = Some j ->
  files (Database_save db fs).1 = <[filename db := Document j]> (files fs).
Proof. intros Hw Hj. unfold Database_save. by rewrite Hw, Hj. Qed.

Lemma write_snapshot_saves alerts c fs :
  let m1 : gmap string value :=
    <["processedAlerts" := VStringSlice (Set_Slice alerts)]> ∅ in
  let m2 := <["maxWazersOnline" := VInt (Counter_Get c)]> m1 in
  write_snapshot alerts c fs
  = (Database_save {| filename := "db.json"; db_data := m2 |}
       (Database_save {| filename := "db.json"; db_data := m1 |} fs).1).1.
Proof.
  intros m1 m2. unfold write_snapshot, SetProcessedAlerts, SetMaxWazersOnline, NewDatabase.
  cbn [filename db_data]. fold m1.
  destruct (Database_save {| filename := "db.json"; db_data := m1 |} fs) as [fs1 logs1].
  cbn [filename db_data fst]. fold m2.
  by destruct (Database_save {| filename := "db.json"; db_data := m2 |} fs1).
Qed.

Lemma write_snapshot_file fl alerts c :
  exists l,
    files (write_snapshot alerts c {| files := fl; writable := true |}) !! "db.json"
    = Some (Document (JObject l)) /\
    decode_members l ∅
    = {[ "processedAlerts" := reread (VStringSlice (Set_Slice alerts));
         "maxWazersOnline" := VFloat64 (float64_of_int (count c)) ]}.
Proof.
  rewrite write_snapshot_saves. cbv zeta.
  set (m1 := <["processedAlerts" := VStringSlice (Set_Slice alerts)]> (∅ : gmap string value)).
  set (m2 := <["maxWazersOnline" := VInt (Counter_Get c)]> m1).
  set (fs0 := {| files := fl; writable := true |}).
  set (db1 := {| filename := "db.json"; db_data := m1 |}).
  set (db2 := {| filename := "db.json"; db_data := m2 |}).
  pose proof (Database_save_writable db1 fs0 eq_refl) as Hw1.
  assert (H2 : map_Forall (fun _ v => is_Some (encode_value v)) m2).
  { subst m2 m1. apply map_Forall_insert_2; [by eexists|].
    apply map_Forall_insert_2; [|apply map_Forall_empty].
    unfold encode_value. destruct (Set_Slice alerts); by eexists. }
  destruct (encode_decode_members m2 H2) as (l & Henc & Hdec).
  rewrite (Database_save_encoded db2 _ _ Hw1 Henc).
  exists l. split.
  - apply lookup_insert_eq.
  - rewrite Hdec. subst m2 m1. rewrite !fmap_insert, fmap_empty.
    apply map_eq. intros k.
    destruct (decide (k = "maxWazersOnline")) as [->|Hk1].
    { rewrite lookup_insert_eq, lookup_insert_ne by done.
      by rewrite lookup_singleton_eq. }
    rewrite (lookup_insert_ne _ "maxWazersOnline") by done.
    destruct (decide (k = "processedAlerts")) as [->|Hk2].
    { by rewrite !lookup_insert_eq. }
    rewrite !lookup_insert_ne by done.
    by rewrite lookup_empty, lookup_singleton_ne.
Qed.

(** C2. Whatever [db.json] holds (nothing, bytes that are no JSON value, or
    any JSON document), [GetProcessedAlerts] returns the empty set and
    [GetMaxWazersOnline] the counter 0 when the process starts: the decoder
    stores [[]interface{}] and [float64], on which the assertions to
    [[]string] and [int] fail.  In particular a snapshot written by
    [SetProcessedAlerts] and [SetMaxWazersOnline], which is in the file as
    an object holding the identifiers and the peak, is not restored. *)
Theorem snapshot_never_restored :
  (forall fs, startup fs = ({| set_data := ∅ |}, {| count := 0 |})) /\
  (forall fl alerts c,
     let fs := write_snapshot alerts c {| files := fl; writable := true |} in
     (exists l,
        files fs !! "db.json" = Some (Document (JObject l)) /\
        decode_members l ∅
        = {[ "processedAlerts" := reread (VStringSlice (Set_Slice alerts));
             "maxWazersOnline" := VFloat64 (float64_of_int (count c)) ]}) /\
     startup fs = ({| set_data := ∅ |}, {| count := 0 |})).
Proof.
  split.
  - intros fs. apply startup_empty.
  - intros fl alerts c fs. split.
    + apply write_snapshot_file.
    + apply startup_empty.
Qed.

(** The snapshot of the set {a1, a2} and the peak 30, and the state the
    next start gets from it. *)
Example snapshot_a1_a2_30 :
  let fs := write_snapshot (NewSet ["a1"; "a2"]) (NewCounter 30)
                           {| files := ∅; writable := true |} in
  files fs !! "db.json"
  = Some (Document (JObject [("maxWazersOnline", JNumber 30);
                             ("processedAlerts", JArray [JString "a1"; JString "a2"])])) /\
  startup fs = ({| set_data := ∅ |}, {| count := 0 |}).
Proof. vm_compute. done. Qed.

(** ** The scheduler *)

Lemma next_tick_unixNano now :
  unixNano (next_tick now).1
  = (local_sec now + 60 - (local_sec now + 60) mod 60 - Location now) * second_ns.
Proof.
  unfold next_tick, time_Date, Time_Date, Time_Hour, Time_Minute, Time_Add,
    local_sec, Minute_ns, second_ns. cbn [fst unixNano Location].
  replace ((unixNano now + 1 * (60 * 1000000000)) `div` 1000000000)
    with (unixNano now `div` 1000000000 + 60).
  2:{ replace (unixNano now + 1 * (60 * 1000000000))
        with (unixNano now + 60 * 1000000000) by lia.
      by rewrite Z.div_add. }
  set (s := unixNano now `div` 1000000000 + 60 + Location now).
  replace (unixNano now `div` 1000000000 + Location now + 60) with s by (subst s; lia).
  Z.div_mod_to_equations. lia.
Qed.

Lemma next_tick_on_minute now : on_minute (next_tick now).1.
Proof.
  pose proof (next_tick_unixNano now) as Hn.
  assert (HL : Location (next_tick now).1 = Location now) by done.
  unfold on_minute, Time_Second, Time_Nanosecond, local_sec.
  rewrite HL, Hn. unfold second_ns. rewrite Z.div_mul, Z.mod_mul by lia.
  split; [|done]. Z.div_mod_to_equations. lia.
Qed.

Lemma next_tick_future now :
  unixNano now < unixNano (next_tick now).1 <= unixNano now + Minute_ns.
Proof.
  rewrite next_tick_unixNano. unfold local_sec, Minute_ns, second_ns.
  Z.div_mod_to_equations. lia.
Qed.

Lemma next_tick_least now t :
  Location t = Location now -> on_minute t -> unixNano now < unixNano t ->
  unixNano (next_tick now).1 <= unixNano t.
Proof.
  intros HL [Hs Hn] Hlt. rewrite next_tick_unixNano.
  unfold Time_Second, Time_Nanosecond, local_sec, second_ns in *. rewrite HL in Hs.
  Z.div_mod_to_equations. lia.
Qed.

Lemma scheduleJob_rounds rounds now :
  Forall2 (fun r x =>
             x.1.2 = (next_tick x.1.1).1 /\
             unixNano x.2 = unixNano x.1.2 + r.1)
          rounds (scheduleJob rounds now).
Proof.
  revert now. induction rounds as [|[late took] rounds IH]; intros now; simpl.
  - constructor.
  - constructor; [|apply IH]. split; [done|].
    unfold next_tick, Time_Sub, Time_Add. cbn [fst snd unixNano]. lia.
Qed.

(** C10. Whatever the clock reads when a task starts a round, the instant
    it sleeps until is the top of the next minute: its seconds and fraction
    are zero, it is strictly in the future and at most a minute away, no
    other minute boundary lies between, and the timer gets exactly that
    distance.  The loop repeats this at every round, so each job is started
    at the boundary that follows the reading of the clock (plus what the
    timer fires late), not at a fixed interval from the start of the task. *)
Theorem scheduleJob_top_of_next_minute :
  (forall now,
     let next := (next_tick now).1 in
     on_minute next /\
     unixNano now < unixNano next <= unixNano now + Minute_ns /\
     (forall t, Location t = Location now -> on_minute t ->
                unixNano now < unixNano t -> unixNano next <= unixNano t) /\
     (next_tick now).2 = unixNano next - unixNano now) /\
  (forall rounds now,
     Forall2 (fun r x =>
                let '(start, next, fired) := x in
                next = (next_tick start).1 /\
                on_minute next /\
                unixNano start < unixNano next /\
                unixNano fired = unixNano next + r.1)
             rounds (scheduleJob rounds now)).
Proof.
  split.
  - intros now next. split; [apply next_tick_on_minute|].
    split; [apply next_tick_future|]. split; [|done].
    intros t. apply next_tick_least.
  - intros rounds now.
    eapply Forall2_impl; [apply scheduleJob_rounds|].
    intros [late took] [[start next] fired]. cbn [fst snd]. intros [-> Hf].
    split; [done|]. split; [apply next_tick_on_minute|].
    split; [apply next_tick_future|done].
Qed.

(** A task that reads 11:26:29.123456789 (UTC-3) sleeps until 11:27:00. *)
Example next_tick_11_26_29 :
  let now := {| unixNano := 1793456789123456789; Location := -10800 |} in
  Time_Format now = "11:26:29" /\
  next_tick now = ({| unixNano := 1793456820000000000; Location := -10800 |}, 30876543211) /\
  Time_Format (next_tick now).1 = "11:27:00".
Proof. vm_compute. done. Qed.

(** ** The peak counter *)

Lemma observe_max v c : Counter_Get (observe v c) = Z.max (Counter_Get c) v.
Proof.
  unfold observe, Counter_Set, Counter_Get.
  destruct (Z.gtb_spec v (count c)); simpl; lia.
Qed.

Lemma foldr_max_init a v vs :
  foldr Z.max (Z.max a v) vs = Z.max v (foldr Z.max a vs).
Proof. induction vs as [|w vs IH]; simpl; lia. Qed.

Lemma observe_all vs c :
  Counter_Get (foldl (fun c v => observe v c) c vs) = foldr Z.max (Counter_Get c) vs.
Proof.
  revert c. induction vs as [|v vs IH]; intros c; simpl; [done|].
  by rewrite IH, observe_max, foldr_max_init.
Qed.

Lemma max_sample_upper vs v : v ∈ vs -> v <= max_sample vs.
Proof.
  unfold max_sample. induction vs as [|w vs IH]; intros Hv; simpl.
  - by apply elem_of_nil in Hv.
  - apply elem_of_cons in Hv as [->|Hv]; [lia|]. specialize (IH Hv). lia.
Qed.

Lemma max_sample_nonneg vs : 0 <= max_sample vs.
Proof. unfold max_sample. induction vs as [|w vs IH]; simpl; lia. Qed.

Lemma max_sample_elem vs :
  Forall (fun v => 0 <= v) vs -> vs <> [] -> max_sample vs ∈ vs.
Proof.
  unfold max_sample. induction 1 as [|w vs Hw Hvs IH]; intros Hne; [done|]. simpl.
  destruct vs as [|w' vs'].
  - simpl. rewrite Z.max_l by done. by left.
  - destruct (Z.max_spec w (foldr Z.max 0 (w' :: vs'))) as [[_ ->]|[_ ->]].
    + right. by apply IH.
    + by left.
Qed.

Lemma sendWazersReport_resets c :
  0 <= Counter_Get c ->
  sendWazersReport c
  = ((if Counter_Get c >? 0
      then [Message (fmt_d (Counter_Get c) +:+ " wazers conectados 🚙 🚕 🚚")]
      else []),
     NewCounter 0).
Proof.
  intros Hc. unfold sendWazersReport, Counter_Set, NewCounter.
  destruct (Z.gtb_spec (Counter_Get c) 0) as [Hgt|Hle]; [done|].
  destruct c as [n]. unfold Counter_Get in *. simpl in *. f_equal. f_equal. lia.
Qed.

(** C5. From the counter 0, after any sequence of samples v1..vn, none of
    them negative, each stored by the update of [countWazers] only when it
    is greater than the stored value, the counter holds max(v1..vn) (an
    upper bound of the samples that is one of them, 0 when there is none);
    [sendWazersReport] reads that value, reports it when it is positive and
    leaves the counter at 0, and a second [sendWazersReport] with no sample
    in between reads 0 and reports nothing. *)
Theorem peak_counter_take_and_reset (vs : list Z) :
  Forall (fun v => 0 <= v) vs ->
  let c := foldl (fun c v => observe v c) (NewCounter 0) vs in
  Counter_Get c = max_sample vs /\
  (forall v, v ∈ vs -> v <= max_sample vs) /\
  (vs <> [] -> max_sample vs ∈ vs) /\
  sendWazersReport c
  = ((if max_sample vs >? 0
      then [Message (fmt_d (max_sample vs) +:+ " wazers conectados 🚙 🚕 🚚")]
      else []),
     NewCounter 0) /\
  Counter_Get (sendWazersReport c).2 = 0 /\
  sendWazersReport (sendWazersReport c).2 = ([], NewCounter 0).
Proof.
  intros Hvs c.
  assert (Hc : Counter_Get c = max_sample vs) by apply observe_all.
  assert (Hr : sendWazersReport c
               = ((if max_sample vs >? 0
                   then [Message (fmt_d (max_sample vs) +:+ " wazers conectados 🚙 🚕 🚚")]
                   else []),
                  NewCounter 0)).
  { rewrite <- Hc. apply sendWazersReport_resets. rewrite Hc. apply max_sample_nonneg. }
  split; [done|]. split; [apply max_sample_upper|].
  split; [by apply max_sample_elem|]. split; [done|]. by rewrite Hr.
Qed.

Lemma peak_counter_take_and_reset_witness :
  Forall (fun v => 0 <= v) [12; 5; 30] /\
  Counter_Get (foldl (fun c v => observe v c) (NewCounter 0) [12; 5; 30]) = 30 /\
  sendWazersReport (foldl (fun c v => observe v c) (NewCounter 0) [12; 5; 30])
  = ([Message "30 wazers conectados 🚙 🚕 🚚"], NewCounter 0).
Proof.
  assert (H : Forall (fun v => 0 <= v) [12; 5; 30]) by (repeat constructor; lia).
  split; [exact H|].
  destruct (peak_counter_take_and_reset [12; 5; 30] H) as (Hc & _ & _ & Hr & _).
  split; [exact Hc | exact Hr].
Defined.

(** The scenario of the specification: 12, 5, 30 are reported as 30, and a
    following 4 as 4. *)
Example peak_scenario :
  let c1 := foldl (fun c v => observe v c) (NewCounter 0) [12; 5; 30] in
  let '(out1, c2) := sendWazersReport c1 in
  let '(out2, c3) := sendWazersReport (observe 4 c2) in
  out1 = [Message "30 wazers conectados 🚙 🚕 🚚"] /\
  out2 = [Message "4 wazers conectados 🚙 🚕 🚚"] /\
  c3 = NewCounter 0.
Proof. vm_compute. done. Qed.

(** [countWazers] on a decoded response is the sum of the counts followed
    by [observe]. *)
Lemma countWazers_observe data usersOnJams v c :
  index data "usersOnJams" = VSlice usersOnJams ->
  sum_wazers usersOnJams 0 = Ok v ->
  countWazers data c = (observe v c, Ok tt).
Proof.
  intros Hd Hs. unfold countWazers, bind, lift, modify.
  rewrite Hd. cbn [assert_slice]. by rewrite Hs.
Qed.

(** A response whose only jam reports -1: the call returns normally and the
    counter is as before; [Counter.Set] stores a negative value as any other. *)
Lemma negative_sample_is_not_an_error :
  let data : gmap string value :=
    {[ "usersOnJams" := VSlice [VMap {[ "wazersCount" := VFloat64 (-1) ]}] ]} in
  sum_wazers [VMap {[ "wazersCount" := VFloat64 (-1) ]}] 0 = Ok (-1) /\
  countWazers data (NewCounter 0) = (NewCounter 0, Ok tt) /\
  is_ok (countWazers data (NewCounter 0)).2 = true /\
  Counter_Set (-1) (NewCounter 0) = {| count := -1 |}.
Proof. vm_compute. done. Qed.

(** C6, as the code has it.  No sample is an error: with a stored value
    that is not negative (it starts at 0, and neither the update nor the
    report makes it negative), a negative sample is not greater than it, so
    [countWazers] returns normally and leaves the counter as it was. *)
Theorem negative_sample_ignored (data : gmap string value) (usersOnJams : list value)
    (v : Z) (c : Counter) :
  index data "usersOnJams" = VSlice usersOnJams ->
  sum_wazers usersOnJams 0 = Ok v ->
  v < 0 ->
  0 <= Counter_Get c ->
  countWazers data c = (c, Ok tt) /\
  observe v c = c /\
  (forall w, 0 <= Counter_Get (observe w c)) /\
  0 <= Counter_Get (sendWazersReport c).2.
Proof.
  intros Hd Hs Hv Hc.
  assert (Ho : observe v c = c).
  { unfold observe. destruct (Z.gtb_spec v (Counter_Get c)); [lia|done]. }
  split; [by rewrite (countWazers_observe _ _ _ _ Hd Hs), Ho|].
  split; [done|]. split.
  - intros w. rewrite observe_max. lia.
  - by rewrite sendWazersReport_resets.
Qed.

Lemma negative_sample_ignored_witness :
  countWazers {[ "usersOnJams" := VSlice [VMap {[ "wazersCount" := VFloat64 (-1) ]}] ]}
              (NewCounter 7)
  = (NewCounter 7, Ok tt).
Proof.
  refine (proj1 (negative_sample_ignored _ [VMap {[ "wazersCount" := VFloat64 (-1) ]}]
                   (-1) (NewCounter 7) _ _ _ _)).
  - reflexivity.
  - vm_compute. reflexivity.
  - lia.
  - vm_compute. discriminate.
Defined.

(** ** Ingestion *)

Section Ingestion.

Variable disp : gmap string value -> event.

#[local] Abbreviation step := (step disp).
#[local] Abbreviation run := (run disp).

Lemma for_range_ext {S A} (f g : A -> M S unit) l st :
  (forall x s, f x s = g x s) -> for_range l f st = for_range l g st.
Proof.
  intros Hfg. revert st. induction l as [|x l IH]; intros st; simpl; [done|].
  unfold bind. rewrite Hfg. destruct (g x st) as [st' [[]|p]]; [apply IH|done].
Qed.

Lemma for_range_app {S A} (f : A -> M S unit) l1 l2 st :
  for_range (l1 ++ l2) f st
  = match for_range l1 f st with
    | (st', Ok _) => for_range l2 f st'
    | (st', Panic p) => (st', Panic p)
    end.
Proof.
  revert st. induction l1 as [|x l1 IH]; intros st; simpl; [done|].
  unfold bind. destruct (f x st) as [st' [[]|p]]; [apply IH|done].
Qed.

Lemma step_ok alert st :
  is_ok (alert_id alert) = true -> is_ok (step alert st).2 = true.
Proof.
  unfold alert_id, step. destruct alert as [| | | | |m| |]; simpl; try done.
  destruct (index m "uuid"); simpl; try done. by destruct (Set_Has _ _).
Qed.

Lemma step_panic alert st p :
  alert_id alert = Panic p -> step alert st = (st, Panic p).
Proof.
  unfold alert_id, step. destruct alert as [| | | | |m| |]; simpl; try by intros [= <-].
  destruct (index m "uuid"); simpl; by intros [= <-].
Qed.

Lemma run_app s1 tr1 s2 tr2 s3 :
  run s1 tr1 s2 -> run s2 tr2 s3 -> run s1 (tr1 ++ tr2) s3.
Proof. induction 1; simpl; [done|]. intros. by apply run_new; auto. Qed.

(** Whatever the batch, a run of the loop only appends events, and they
    form a [run]. *)
Lemma for_range_step_run l st :
  exists tr,
    trace (for_range l step st).1 = trace st ++ tr /\
    run (set_data (processedAlerts st)) tr
        (set_data (processedAlerts (for_range l step st).1)).
Proof.
  revert st. induction l as [|alert l IH]; intros st; simpl.
  - exists []. split; [by rewrite app_nil_r | constructor].
  - unfold bind.
    destruct alert as [| | | | |m| |];
      try (exists []; split; [by rewrite app_nil_r | constructor]).
    unfold step at 1 3.
    destruct (index m "uuid") as [| | |id| | | |] eqn:Hid;
      try (exists []; split; [by rewrite app_nil_r | constructor]).
    unfold Set_Has. case_bool_decide as Hin; [apply IH|].
    match goal with |- context [for_range l step ?st1] =>
      destruct (IH st1) as (tr & Htr & Hrun) end.
    exists (disp m :: Added id :: tr). split.
    + rewrite Htr. cbn [trace]. by rewrite <- app_assoc.
    + by apply run_new.
Qed.

(** On a batch whose records all have an identifier the loop returns,
    and the set has gained the identifiers of the batch. *)
Lemma for_range_step_ok l st :
  Forall (fun alert => is_ok (alert_id alert) = true) l ->
  (for_range l step st).2 = Ok tt /\
  set_data (processedAlerts (for_range l step st).1)
  = set_data (processedAlerts st) ∪ alert_ids l.
Proof.
  intros Hl. revert st. induction Hl as [|alert l Ha Hl IH]; intros st; simpl.
  - split; [done|]. unfold alert_ids. simpl. set_solver.
  - unfold bind, alert_ids in *. unfold alert_id in Ha |- *. simpl.
    destruct alert as [| | | | |m| |]; try done. simpl in *.
    destruct (index m "uuid") as [| | |id| | | |] eqn:Hid; try done. simpl.
    unfold Set_Has. case_bool_decide as Hin.
    + destruct (IH st) as [-> ->]. split; [done|]. set_solver.
    + match goal with |- context [for_range l step ?st1] =>
        destruct (IH st1) as [-> ->] end.
      split; [done|]. simpl. set_solver.
Qed.

Lemma run_grows s tr s' : run s tr s' -> s ⊆ s'.
Proof. induction 1; set_solver. Qed.

(** A run that leaves the set as it found it did nothing. *)
Lemma run_same s tr : run s tr s -> tr = [].
Proof.
  inversion 1 as [|? m id tr' ? Hid Hnin Hrun]; subst; [done|].
  apply run_grows in Hrun. set_solver.
Qed.

(** A record without identifier ends the loop where it stands. *)
Lemma for_range_step_abort good bad rest st p :
  Forall (fun alert => is_ok (alert_id alert) = true) good ->
  alert_id bad = Panic p ->
  for_range (good ++ bad :: rest) step st = ((for_range good step st).1, Panic p).
Proof.
  intros Hgood Hbad. rewrite for_range_app.
  destruct (for_range_step_ok good st Hgood) as [Hok _].
  destruct (for_range good step st) as [st' r]. simpl in *. subst r.
  unfold bind. by rewrite (step_panic _ _ _ Hbad).
Qed.

Hypothesis disp_not_added : forall m id, disp m <> Added id.
Hypothesis disp_inj : forall m m', disp m = disp m' -> m = m'.

(** In a run every addition comes right after the dispatch of the alert
    with that identifier. *)
Lemma run_add_after_dispatch s tr s' pre id post :
  run s tr s' -> tr = pre ++ Added id :: post ->
  exists pre' m, pre = pre' ++ [disp m] /\ index m "uuid" = VString id.
Proof.
  intros Hrun. revert pre. induction Hrun as [s|s m0 id0 tr s' Hid Hnin Hrun IH];
    intros pre Heq.
  - by destruct pre.
  - destruct pre as [|x [|y pre2]]; simpl in Heq.
    + inversion Heq as [[Hd Hrest]]. by apply disp_not_added in Hd.
    + inversion Heq; subst. by exists [], m0.
    + inversion Heq as [[Hx Hy Hrest]]. destruct (IH _ Hrest) as (pre' & m & -> & Hm).
      by exists (disp m0 :: Added id0 :: pre'), m.
Qed.

(** and every dispatch is followed at once by the addition. *)
Lemma run_dispatch_then_add s tr s' pre m post :
  run s tr s' -> tr = pre ++ disp m :: post ->
  exists id post', post = Added id :: post' /\ index m "uuid" = VString id /\ id ∉ s.
Proof.
  intros Hrun. revert pre. induction Hrun as [s|s m0 id0 tr s' Hid Hnin Hrun IH];
    intros pre Heq.
  - by destruct pre.
  - destruct pre as [|x [|y pre2]]; simpl in Heq.
    + inversion Heq as [[Hd Hrest]]. apply disp_inj in Hd as <-. by exists id0, tr.
    + inversion Heq as [[Hx Hd Hrest]]. symmetry in Hd. by apply disp_not_added in Hd.
    + inversion Heq as [[Hx Hy Hrest]].
      destruct (IH _ Hrest) as (id & post' & -> & Hm & Hn).
      exists id, post'. split; [done|]. split; [done|]. set_solver.
Qed.

Hypothesis disp_not_logged : forall m msg, disp m <> Logged msg.

(** The trace of a whole call: the log line, then a run; at whatever
    point the call is cut, the identifiers added so far are those of alerts
    dispatched before. *)
Lemma logged_run_order msg s tr s' :
  run s tr s' ->
  let t := Logged msg :: tr in
  (forall pre id post, t = pre ++ Added id :: post ->
     exists pre' m, pre = pre' ++ [disp m] /\ index m "uuid" = VString id) /\
  (forall pre m post, t = pre ++ disp m :: post ->
     exists id post', post = Added id :: post' /\ index m "uuid" = VString id /\ id ∉ s) /\
  (forall pre post id, t = pre ++ post -> Added id ∈ pre ->
     exists m, disp m ∈ pre /\ index m "uuid" = VString id).
Proof.
  intros Hrun t.
  assert (H1 : forall pre id post, t = pre ++ Added id :: post ->
             exists pre' m, pre = pre' ++ [disp m] /\ index m "uuid" = VString id).
  { intros pre id post Heq. subst t. destruct pre as [|x pre1]; [done|].
    inversion Heq as [[Hx Hrest]].
    destruct (run_add_after_dispatch _ _ _ _ _ _ Hrun Hrest) as (pre' & m & -> & Hm).
    by exists (Logged msg :: pre'), m. }
  split; [exact H1|]. split.
  - intros pre m post Heq. subst t. destruct pre as [|x pre1].
    + inversion Heq as [[Hx Hrest]]. symmetry in Hx. by apply disp_not_logged in Hx.
    + inversion Heq as [[Hx Hrest]]. by eapply run_dispatch_then_add.
  - intros pre post id Heq Hin.
    apply list_elem_of_split in Hin as (p1 & p2 & ->).
    rewrite <- app_assoc in Heq. simpl in Heq.
    destruct (H1 _ _ _ Heq) as (pre' & m & -> & Hm).
    exists m. split; [|done]. set_solver.
Qed.

End Ingestion.

(** ** Ingestion: both entry points run the loop [step] *)

Lemma Waze_processAlerts_step batch st :
  Waze.processAlerts batch st
  = for_range batch (step Sent) (record (Logged "processando alertas") st).
Proof.
  unfold Waze.processAlerts, bind at 1, logger, modify. apply for_range_ext.
  intros alert s. unfold step, bind, lift, Has, gets, Waze.send, Add, modify, ret.
  destruct alert as [| | | | |m| |]; simpl; try done.
  destruct (index m "uuid"); simpl; try done.
  destruct (Set_Has (processedAlerts s) s0); simpl; [done|].
  unfold record. simpl. by rewrite <- app_assoc.
Qed.

Lemma Bot_processAlerts_step batch st :
  Bot.processAlerts batch st
  = for_range batch (step (fun m => Spawned (VMap m)))
              (record (Logged "processando alertas") st).
Proof.
  unfold Bot.processAlerts, bind at 1, logger, modify. apply for_range_ext.
  intros alert s. unfold step, bind, lift, Has, gets, Bot.spawn, Add, modify, ret.
  destruct alert as [| | | | |m| |]; simpl; try done.
  destruct (index m "uuid"); simpl; try done.
  destruct (Set_Has (processedAlerts s) s0); simpl; [done|].
  unfold record. simpl. by rewrite <- app_assoc.
Qed.

Lemma sent_alerts_app tr1 tr2 :
  sent_alerts (tr1 ++ tr2) = sent_alerts tr1 ++ sent_alerts tr2.
Proof. apply omap_app. Qed.

Lemma dispatches_app id tr1 tr2 :
  dispatches id (tr1 ++ tr2) = (dispatches id tr1 + dispatches id tr2)%nat.
Proof.
  unfold dispatches. by rewrite sent_alerts_app, List.filter_app, length_app.
Qed.

(** In a run an identifier is dispatched once if the run added it to the
    set, and not at all otherwise. *)
Lemma run_dispatches s tr s' id :
  run Sent s tr s' ->
  dispatches id tr = if decide (id ∈ s' /\ id ∉ s) then 1%nat else 0%nat.
Proof.
  induction 1 as [s|s m id0 tr s' Hid Hnin Hrun IH].
  - case_decide as Hd; [|done]. by destruct Hd.
  - pose proof (run_grows _ _ _ _ Hrun) as Hsub.
    change (dispatches id (Sent m :: Added id0 :: tr))
      with (length (if has_id id m then m :: List.filter (has_id id) (sent_alerts tr)
                    else List.filter (has_id id) (sent_alerts tr))).
    unfold has_id at 1. rewrite Hid. fold (dispatches id tr) in *.
    destruct (String.eqb_spec id0 id) as [->|Hne]; simpl; fold (dispatches id tr);
      rewrite IH; repeat case_decide; try done; set_solver.
Qed.

(** C1. A batch whose records all carry a string uuid, ingested twice in
    succession, has every distinct identifier that was not yet in the
    processed-alerts set dispatched exactly once over both calls, and every
    other identifier not at all: the second call finds each identifier in
    the set and sends nothing.  The batch a1/JAM, a1/JAM, a2/POLICE
    ingested once by a process that has seen nothing yields two dispatches
    (a1 once, a2 once), a log of length 2 once [main] has received them,
    and the set {a1, a2}. *)
Theorem ingest_twice_dispatches_once :
  (forall (batch : list value) (seen : StrSet),
     Forall (fun alert => is_ok (alert_id alert) = true) batch ->
     let r1 := Waze.processAlerts batch (fresh seen) in
     let r2 := Waze.processAlerts batch r1.1 in
     r1.2 = Ok tt /\ r2.2 = Ok tt /\
     (forall id,
        dispatches id (trace r2.1)
        = if decide (id ∈ alert_ids batch /\ id ∉ set_data seen) then 1%nat else 0%nat) /\
     sent_alerts (trace r2.1) = sent_alerts (trace r1.1) /\
     set_data (processedAlerts r2.1) = set_data seen ∪ alert_ids batch) /\
  (let r := Waze.processAlerts scenario_batch (fresh (NewSet [])) in
   r.2 = Ok tt /\
   sent_alerts (trace r.1)
   = [ {[ "uuid" := VString "a1"; "type" := VString "JAM" ]};
       {[ "uuid" := VString "a2"; "type" := VString "POLICE" ]} ] /\
   dispatches "a1" (trace r.1) = 1%nat /\
   dispatches "a2" (trace r.1) = 1%nat /\
   (exists h, Waze.main_loop (sent_alerts (trace r.1)) (fun cl => elements (dom cl))
                             no_subscriber = Waze.Completed h /\
              length (Waze.alerts h) = 2%nat) /\
   set_data (processedAlerts r.1) = {[ "a1"; "a2" ]}).
Proof.
  split.
  - intros batch seen Hwf r1 r2. subst r1 r2.
    rewrite !Waze_processAlerts_step.
    set (st1 := record (Logged "processando alertas") (fresh seen)).
    destruct (for_range_step_ok Sent batch st1 Hwf) as [Hr1 Hs1].
    destruct (for_range_step_run Sent batch st1) as (tr1 & Ht1 & Hrun1).
    set (st1' := (for_range batch (step Sent) st1).1) in *.
    set (st2 := record (Logged "processando alertas") st1').
    destruct (for_range_step_ok Sent batch st2 Hwf) as [Hr2 Hs2].
    destruct (for_range_step_run Sent batch st2) as (tr2 & Ht2 & Hrun2).
    set (st2' := (for_range batch (step Sent) st2).1) in *.
    assert (Hset2 : set_data (processedAlerts st2') = set_data (processedAlerts st1')).
    { rewrite Hs2. change (processedAlerts st2) with (processedAlerts st1').
      rewrite Hs1. set_solver. }
    change (processedAlerts st2) with (processedAlerts st1') in Hrun2.
    rewrite Hset2 in Hrun2. apply run_same in Hrun2. subst tr2.
    rewrite app_nil_r in Ht2.
    change (processedAlerts st1) with seen in *.
    assert (Htr : trace st2' = Logged "processando alertas" :: tr1
                               ++ [Logged "processando alertas"]).
    { rewrite Ht2. subst st2. unfold record at 1. cbn [trace]. by rewrite Ht1. }
    split; [done|]. split; [done|]. split; [|split].
    + intros id. rewrite Htr.
      change (Logged "processando alertas" :: tr1 ++ [Logged "processando alertas"])
        with ([Logged "processando alertas"] ++ tr1 ++ [Logged "processando alertas"]).
      rewrite !dispatches_app. rewrite (run_dispatches _ _ _ id Hrun1), Hs1.
      change (dispatches id [Logged "processando alertas"]) with 0%nat.
      repeat case_decide; try done; set_solver.
    + rewrite Htr, Ht1.
      change (Logged "processando alertas" :: tr1 ++ [Logged "processando alertas"])
        with ([Logged "processando alertas"] ++ tr1 ++ [Logged "processando alertas"]).
      rewrite !sent_alerts_app. change (trace st1) with [Logged "processando alertas"].
      change (sent_alerts [Logged "processando alertas"]) with (@nil (gmap string value)).
      by rewrite app_nil_r.
    + rewrite Hset2, Hs1. done.
  - vm_compute. repeat split; try done. by eexists.
Qed.

Lemma ingest_twice_dispatches_once_witness :
  Forall (fun alert => is_ok (alert_id alert) = true) scenario_batch /\
  dispatches "a1" (trace (Waze.processAlerts scenario_batch
                            (Waze.processAlerts scenario_batch (fresh (NewSet []))).1).1)
  = 1%nat.
Proof.
  assert (H : Forall (fun alert => is_ok (alert_id alert) = true) scenario_batch)
    by (repeat constructor).
  split; [exact H|].
  rewrite (proj1 (proj2 (proj2 (proj1 ingest_twice_dispatches_once scenario_batch
                                      (NewSet []) H))) "a1").
  vm_compute. reflexivity.
Defined.

Lemma Waze_processAlerts_trace batch seen :
  exists tr,
    trace (Waze.processAlerts batch (fresh seen)).1 = Logged "processando alertas" :: tr /\
    run Sent (set_data seen) tr
        (set_data (processedAlerts (Waze.processAlerts batch (fresh seen)).1)).
Proof.
  rewrite Waze_processAlerts_step.
  destruct (for_range_step_run Sent batch
              (record (Logged "processando alertas") (fresh seen))) as (tr & Ht & Hrun).
  by exists tr.
Qed.

Lemma Bot_processAlerts_trace batch seen :
  exists tr,
    trace (Bot.processAlerts batch (fresh seen)).1 = Logged "processando alertas" :: tr /\
    run (fun m => Spawned (VMap m)) (set_data seen) tr
        (set_data (processedAlerts (Bot.processAlerts batch (fresh seen)).1)).
Proof.
  rewrite Bot_processAlerts_step.
  destruct (for_range_step_run (fun m => Spawned (VMap m)) batch
              (record (Logged "processando alertas") (fresh seen))) as (tr & Ht & Hrun).
  by exists tr.
Qed.

(** C7. In every call of [processAlerts], on any batch and from any set,
    the identifier of a new alert is added to the processed-alerts set
    right after that alert was dispatched (sent on [alertsCh] in waze.go,
    handed to [go handleAlert] in the bot), never before: every addition in
    the trace is preceded at once by the dispatch of the alert with that
    identifier, every dispatch is followed at once by the addition, and
    wherever the call is cut short the identifiers added so far all belong
    to alerts already dispatched, so a failure can only leave an alert
    dispatched and not yet recorded. *)
Theorem dispatch_precedes_add :
  forall (batch : list value) (seen : StrSet),
    let tw := trace (Waze.processAlerts batch (fresh seen)).1 in
    let tb := trace (Bot.processAlerts batch (fresh seen)).1 in
    ((forall pre id post, tw = pre ++ Added id :: post ->
        exists pre' m, pre = pre' ++ [Sent m] /\ index m "uuid" = VString id) /\
     (forall pre m post, tw = pre ++ Sent m :: post ->
        exists id post', post = Added id :: post' /\ index m "uuid" = VString id /\
                         id ∉ set_data seen) /\
     (forall pre post id, tw = pre ++ post -> Added id ∈ pre ->
        exists m, Sent m ∈ pre /\ index m "uuid" = VString id)) /\
    ((forall pre id post, tb = pre ++ Added id :: post ->
        exists pre' m, pre = pre' ++ [Spawned (VMap m)] /\ index m "uuid" = VString id) /\
     (forall pre m post, tb = pre ++ Spawned (VMap m) :: post ->
        exists id post', post = Added id :: post' /\ index m "uuid" = VString id /\
                         id ∉ set_data seen) /\
     (forall pre post id, tb = pre ++ post -> Added id ∈ pre ->
        exists m, Spawned (VMap m) ∈ pre /\ index m "uuid" = VString id)).
Proof.
  intros batch seen tw tb. split.
  - destruct (Waze_processAlerts_trace batch seen) as (tr & Ht & Hrun).
    subst tw. rewrite Ht.
    refine (logged_run_order Sent _ _ _ _ _ _ _ Hrun);
      [done | by intros ?? [=] | done].
  - destruct (Bot_processAlerts_trace batch seen) as (tr & Ht & Hrun).
    subst tb. rewrite Ht.
    refine (logged_run_order (fun m => Spawned (VMap m)) _ _ _ _ _ _ _ Hrun);
      [done | by intros ?? [=] | done].
Qed.

(** The scenario batch: a1 is sent and then added, the second a1 is
    skipped, a2 is sent and then added. *)
Example scenario_trace :
  trace (Waze.processAlerts scenario_batch (fresh (NewSet []))).1
  = [ Logged "processando alertas";
      Sent {[ "uuid" := VString "a1"; "type" := VString "JAM" ]}; Added "a1";
      Sent {[ "uuid" := VString "a2"; "type" := VString "POLICE" ]}; Added "a2" ].
Proof. vm_compute. reflexivity. Qed.

(** ** Records without identifier or tag *)

(** A batch whose first record has no uuid: [processAlerts] panics at it
    and the record after it, a2, is never dispatched; a record with a uuid
    and no type makes the handler of the bot and the switch of
    [handleEvents] panic. *)
Lemma record_without_uuid_or_type_panics :
  let batch := [ VMap {[ "type" := VString "JAM" ]};
                 VMap {[ "uuid" := VString "a2"; "type" := VString "POLICE" ]} ] in
  let e := {| Waze.now := {| unixNano := 0; Location := 0 |}; Waze.range := map_to_list |} in
  let on := {| Waze.ChitChat := true; Waze.Police := true; Waze.Jam := true;
               Waze.Accident := true; Waze.Unknown := true |} in
  Waze.processAlerts batch (fresh (NewSet []))
  = ({| processedAlerts := NewSet []; trace := [Logged "processando alertas"] |},
     Panic (InterfaceConversion VNil TString)) /\
  Bot.processAlerts batch (fresh (NewSet []))
  = ({| processedAlerts := NewSet []; trace := [Logged "processando alertas"] |},
     Panic (InterfaceConversion VNil TString)) /\
  Bot.handleAlert (fun _ => "") map_to_list (VMap {[ "uuid" := VString "a3" ]})
  = Panic (InterfaceConversion VNil TString) /\
  Waze.render (fun _ => "") on e {[ "uuid" := VString "a3" ]}
  = Panic (InterfaceConversion VNil TString).
Proof. vm_compute. done. Qed.

Lemma handleAlert_without_type fmt_v range m :
  (forall ty, m !! "type" <> Some (VString ty)) ->
  Bot.handleAlert fmt_v range (VMap m) = Panic (InterfaceConversion (index m "type") TString).
Proof.
  intros Hty. unfold Bot.handleAlert, rbind, assert_map, index in *.
  destruct (m !! "type") as [[]|]; simpl; try done. by destruct (Hty s).
Qed.

Lemma render_without_type fmt_v filters e m :
  (forall ty, m !! "type" <> Some (VString ty)) ->
  Waze.render fmt_v filters e m = Panic (InterfaceConversion (index m "type") TString).
Proof.
  intros Hty. unfold Waze.render, rbind, index in *.
  destruct (m !! "type") as [[]|]; simpl; try done. by destruct (Hty s).
Qed.

(** C3, as the code has it.  A record is not skipped for lacking a field.
    [processAlerts] reads the uuid with an unchecked type assertion: the
    records before the first one without a string uuid are processed as
    usual, the call panics at that record and the records after it are not
    looked at.  A record that has a uuid is dispatched whether or not it
    has a type, and a batch of such records is processed to the end
    without a panic; it is the handler ([handleAlert] in the bot, the
    switch of [handleEvents] in waze.go) that panics on a record without a
    string type. *)
Theorem malformed_record_is_not_skipped :
  (forall good bad rest seen p,
     Forall (fun alert => is_ok (alert_id alert) = true) good ->
     alert_id bad = Panic p ->
     Waze.processAlerts (good ++ bad :: rest) (fresh seen)
     = ((Waze.processAlerts good (fresh seen)).1, Panic p) /\
     Bot.processAlerts (good ++ bad :: rest) (fresh seen)
     = ((Bot.processAlerts good (fresh seen)).1, Panic p)) /\
  (forall batch seen,
     Forall (fun alert => is_ok (alert_id alert) = true) batch ->
     (Waze.processAlerts batch (fresh seen)).2 = Ok tt /\
     (Bot.processAlerts batch (fresh seen)).2 = Ok tt /\
     set_data (processedAlerts (Waze.processAlerts batch (fresh seen)).1)
     = set_data seen ∪ alert_ids batch) /\
  (forall fmt_v range filters e m,
     (forall ty, m !! "type" <> Some (VString ty)) ->
     Bot.handleAlert fmt_v range (VMap m)
     = Panic (InterfaceConversion (index m "type") TString) /\
     Waze.render fmt_v filters e m
     = Panic (InterfaceConversion (index m "type") TString)).
Proof.
  split; [|split].
  - intros good bad rest seen p Hgood Hbad.
    rewrite !Waze_processAlerts_step, !Bot_processAlerts_step.
    split; by apply for_range_step_abort.
  - intros batch seen Hwf.
    rewrite !Waze_processAlerts_step, !Bot_processAlerts_step.
    destruct (for_range_step_ok Sent batch
                (record (Logged "processando alertas") (fresh seen)) Hwf) as [Hw Hs].
    destruct (for_range_step_ok (fun m => Spawned (VMap m)) batch
                (record (Logged "processando alertas") (fresh seen)) Hwf) as [Hb _].
    done.
  - intros fmt_v range filters e m Hty.
    split; [by apply handleAlert_without_type | by apply render_without_type].
Qed.

Lemma malformed_record_is_not_skipped_witness :
  Waze.processAlerts
    ([VMap {[ "uuid" := VString "a1"; "type" := VString "JAM" ]}]
     ++ VMap {[ "type" := VString "JAM" ]}
     :: [VMap {[ "uuid" := VString "a2"; "type" := VString "POLICE" ]}])
    (fresh (NewSet []))
  = ((Waze.processAlerts [VMap {[ "uuid" := VString "a1"; "type" := VString "JAM" ]}]
                         (fresh (NewSet []))).1,
     Panic (InterfaceConversion VNil TString)).
Proof.
  refine (proj1 (proj1 malformed_record_is_not_skipped _ _ _ _ _ _ _)).
  - repeat constructor.
  - reflexivity.
Defined.

(** ** Rendering *)

Lemma string_append_assoc (a b c : string) : (a +:+ b) +:+ c = a +:+ (b +:+ c).
Proof.
  induction a as [|x a IH]; [done|].
  change (String x ((a +:+ b) +:+ c) = String x (a +:+ (b +:+ c))). by rewrite IH.
Qed.

Lemma string_append_nil_r (a : string) : a +:+ "" = a.
Proof.
  induction a as [|x a IH]; [done|].
  change (String x (a +:+ "") = String x a). by rewrite IH.
Qed.

(** Equal strings that start with prefixes of the same length have equal
    prefixes and equal rests. *)
Lemma string_append_inj_length (a a' b b' : string) :
  String.length a = String.length a' ->
  a +:+ b = a' +:+ b' -> a = a' /\ b = b'.
Proof.
  revert a'. induction a as [|x a IH]; intros [|x' a'] Hlen Heq; try done.
  change (String x (a +:+ b) = String x' (a' +:+ b')) in Heq.
  injection Heq as -> Heq. injection Hlen as Hlen.
  destruct (IH _ Hlen Heq) as [-> ->]. done.
Qed.

Lemma contains_middle (pre sub post : string) : contains (pre +:+ sub +:+ post) sub.
Proof. by exists pre, post. Qed.

Lemma handleChitChat_rendered e alert reportBy location :
  alert !! "reportBy" = Some (VString reportBy) ->
  alert !! "location" = Some (VString location) ->
  Waze.handleChitChat e alert
  = Ok ("[" +:+ Time_Format (Waze.now e) +:+ "] 📢 " +:+ reportBy
        +:+ " deixou um comentário no mapa 💭" +:+ nl
        +:+ "Análise 🗺️: " +:+ location) /\
  Bot.handleChitChat alert
  = Ok [ Message ("📢 " +:+ reportBy +:+ " deixou um comentário no mapa 💭" +:+ nl
                  +:+ "Análise 🗺️: " +:+ location);
         Printed ("ChitChat Alert: " +:+
                  ("📢 " +:+ reportBy +:+ " deixou um comentário no mapa 💭" +:+ nl
                   +:+ "Análise 🗺️: " +:+ location)) ].
Proof.
  intros Hr Hl. unfold Waze.handleChitChat, Bot.handleChitChat, rbind, index.
  by rewrite Hr, Hl.
Qed.

Lemma handleChitChat_rejects e alert :
  (forall s, alert !! "reportBy" <> Some (VString s)) \/
  (forall s, alert !! "location" <> Some (VString s)) ->
  exists p, Waze.handleChitChat e alert = Panic p /\ Bot.handleChitChat alert = Panic p.
Proof.
  unfold Waze.handleChitChat, Bot.handleChitChat, rbind, index.
  intros [Hr|Hl].
  - destruct (alert !! "reportBy") as [[]|]; simpl; try by eexists.
    by destruct (Hr s).
  - destruct (alert !! "reportBy") as [[]|]; simpl; try by eexists.
    destruct (alert !! "location") as [[]|]; simpl; try by eexists.
    by destruct (Hl s0).
Qed.

(** C4. A CHIT_CHAT alert whose reportBy or location field is missing (or
    is not a string) is not rendered and not downgraded to another
    category: [handleChitChat] fails, in both entry points and also when
    reached through the classification ([handleAlert], the switch of
    [handleEvents] with the comment filter on); the failure is the run-time
    panic of the type assertion on the missing field.  With both fields
    present the call succeeds and the rendered message contains the
    reporter text and the location text. *)
Theorem chit_chat_requires_reporter_and_location :
  (forall e alert,
     (forall s, alert !! "reportBy" <> Some (VString s)) \/
     (forall s, alert !! "location" <> Some (VString s)) ->
     exists p, Waze.handleChitChat e alert = Panic p /\
               Bot.handleChitChat alert = Panic p) /\
  (forall e alert, alert !! "reportBy" = None ->
     Waze.handleChitChat e alert = Panic (InterfaceConversion VNil TString) /\
     Bot.handleChitChat alert = Panic (InterfaceConversion VNil TString)) /\
  (forall e alert reportBy, alert !! "reportBy" = Some (VString reportBy) ->
     alert !! "location" = None ->
     Waze.handleChitChat e alert = Panic (InterfaceConversion VNil TString) /\
     Bot.handleChitChat alert = Panic (InterfaceConversion VNil TString)) /\
  (forall e alert reportBy location,
     alert !! "reportBy" = Some (VString reportBy) ->
     alert !! "location" = Some (VString location) ->
     (exists msg, Waze.handleChitChat e alert = Ok msg /\
                  contains msg reportBy /\ contains msg location) /\
     (exists msg, Bot.handleChitChat alert
                  = Ok [Message msg; Printed ("ChitChat Alert: " +:+ msg)] /\
                  contains msg reportBy /\ contains msg location)) /\
  (forall fmt_v range filters e alert,
     alert !! "type" = Some (VString "CHIT_CHAT") ->
     Bot.handleAlert fmt_v range (VMap alert) = Bot.handleChitChat alert /\
     (Waze.ChitChat filters = true ->
      Waze.render fmt_v filters e alert = Waze.handleChitChat e alert)).
Proof.
  split; [|split; [|split; [|split]]].
  - apply handleChitChat_rejects.
  - intros e alert Hr. unfold Waze.handleChitChat, Bot.handleChitChat, rbind, index.
    by rewrite Hr.
  - intros e alert reportBy Hr Hl.
    unfold Waze.handleChitChat, Bot.handleChitChat, rbind, index. by rewrite Hr, Hl.
  - intros e alert reportBy location Hr Hl.
    destruct (handleChitChat_rendered e alert reportBy location Hr Hl) as [Hw Hb].
    split.
    + eexists. split; [exact Hw|]. split.
      * exists ("[" +:+ Time_Format (Waze.now e) +:+ "] 📢 "),
               (" deixou um comentário no mapa 💭" +:+ nl +:+ "Análise 🗺️: " +:+ location).
        by rewrite !string_append_assoc.
      * exists ("[" +:+ Time_Format (Waze.now e) +:+ "] 📢 " +:+ reportBy
                +:+ " deixou um comentário no mapa 💭" +:+ nl +:+ "Análise 🗺️: "), "".
        by rewrite !string_append_assoc, string_append_nil_r.
    + eexists. split; [exact Hb|]. split.
      * exists "📢 ",
               (" deixou um comentário no mapa 💭" +:+ nl +:+ "Análise 🗺️: " +:+ location).
        done.
      * exists ("📢 " +:+ reportBy +:+ " deixou um comentário no mapa 💭" +:+ nl
                +:+ "Análise 🗺️: "), "".
        by rewrite !string_append_assoc, string_append_nil_r.
  - intros fmt_v range filters e alert Hty.
    unfold Bot.handleAlert, Waze.render, rbind, assert_map, index. rewrite Hty. simpl.
    split; [done|]. by intros ->.
Qed.

(** A comment by bob at Rua X, complete and with the location missing. *)
Example chit_chat_bob :
  let e := {| Waze.now := {| unixNano := 1793456789123456789; Location := -10800 |};
              Waze.range := map_to_list |} in
  Waze.handleChitChat e {[ "reportBy" := VString "bob"; "location" := VString "Rua X" ]}
  = Ok ("[11:26:29] 📢 bob deixou um comentário no mapa 💭" +:+ nl +:+ "Análise 🗺️: Rua X") /\
  Waze.handleChitChat e {[ "reportBy" := VString "bob" ]}
  = Panic (InterfaceConversion VNil TString).
Proof. vm_compute. done. Qed.

Lemma Time_Format_length t : String.length (Time_Format t) = 8%nat.
Proof. reflexivity. Qed.

(** The same comment rendered one second apart gives two messages; the
    same police alert rendered with the map ranged over in two orders gives
    two messages; the bot's handler does not return a message, it sends it. *)
Lemma rendering_reads_clock_and_map_order :
  let t := {| unixNano := 1793456789123456789; Location := -10800 |} in
  let e1 := {| Waze.now := t; Waze.range := map_to_list |} in
  let e2 := {| Waze.now := Time_Add t second_ns; Waze.range := map_to_list |} in
  let e3 := {| Waze.now := t; Waze.range := fun m => reverse (map_to_list m) |} in
  let comment : gmap string value :=
    {[ "reportBy" := VString "bob"; "location" := VString "Rua X" ]} in
  let police : gmap string value :=
    {[ "uuid" := VString "a2"; "type" := VString "POLICE" ]} in
  let fmt_v := fun v => match v with VString s => s | _ => "" end in
  Waze.handleChitChat e1 comment
  = Ok ("[11:26:29] 📢 bob deixou um comentário no mapa 💭" +:+ nl +:+ "Análise 🗺️: Rua X") /\
  Waze.handleChitChat e2 comment
  = Ok ("[11:26:30] 📢 bob deixou um comentário no mapa 💭" +:+ nl +:+ "Análise 🗺️: Rua X") /\
  Waze.handleChitChat e1 comment <> Waze.handleChitChat e2 comment /\
  Waze.handlePoliceAlert fmt_v e1 police
  = "[11:26:29] 📢 Polícia &#128660;" +:+ nl +:+ "```uuid: a2" +:+ nl +:+ "type: POLICE"
    +:+ nl +:+ "```" /\
  Waze.handlePoliceAlert fmt_v e3 police
  = "[11:26:29] 📢 Polícia &#128660;" +:+ nl +:+ "```type: POLICE" +:+ nl +:+ "uuid: a2"
    +:+ nl +:+ "```" /\
  Bot.handlePoliceAlert police = [Message "📢 Polícia 🚓"].
Proof. vm_compute. repeat split; done. Qed.

Lemma handleChitChat_stamp (alert : gmap string value) :
  (exists body, forall e', Waze.handleChitChat e' alert
                           = Ok ("[" +:+ Time_Format (Waze.now e') +:+ body)) \/
  (exists p, forall e', Waze.handleChitChat e' alert = Panic p).
Proof.
  unfold Waze.handleChitChat, rbind.
  destruct (assert_string (index alert "reportBy")) as [r|p]; [|right; by exists p].
  destruct (assert_string (index alert "location")) as [l|p]; [|right; by exists p].
  left. by eexists.
Qed.

(** C9, as the code has it.  Rendering is a function of the alert together
    with what the call reads from its environment: the wall clock, whose
    reading every message of waze.go starts with, and the order in which
    the alert's map is ranged over for the field dump.  Whether
    [handleChitChat] succeeds does not depend on the environment; two
    renderings of one comment are equal exactly when the two clock
    readings format to the same text; the rendering of a comment depends
    on no field but reportBy and location; and every message of the switch
    of [handleEvents], and every output of the bot's [handleAlert], is the
    same for two environments that agree on the formatted time and on the
    order of the alert's fields. *)
Theorem rendering_depends_on_clock_and_order :
  (forall alert e1 e2,
     is_ok (Waze.handleChitChat e1 alert) = is_ok (Waze.handleChitChat e2 alert)) /\
  (forall alert e1 e2 m1 m2,
     Waze.handleChitChat e1 alert = Ok m1 ->
     Waze.handleChitChat e2 alert = Ok m2 ->
     (m1 = m2 <-> Time_Format (Waze.now e1) = Time_Format (Waze.now e2))) /\
  (forall e alert alert',
     index alert "reportBy" = index alert' "reportBy" ->
     index alert "location" = index alert' "location" ->
     Waze.handleChitChat e alert = Waze.handleChitChat e alert') /\
  (forall fmt_v filters e1 e2 alert,
     Time_Format (Waze.now e1) = Time_Format (Waze.now e2) ->
     Waze.range e1 alert = Waze.range e2 alert ->
     Waze.render fmt_v filters e1 alert = Waze.render fmt_v filters e2 alert) /\
  (forall fmt_v range1 range2 alert,
     range1 alert = range2 alert ->
     Bot.handleAlert fmt_v range1 (VMap alert) = Bot.handleAlert fmt_v range2 (VMap alert)).
Proof.
  split; [|split; [|split; [|split]]].
  - intros alert e1 e2.
    destruct (handleChitChat_stamp alert) as [[body H]|[p H]]; by rewrite !H.
  - intros alert e1 e2 m1 m2 H1 H2.
    destruct (handleChitChat_stamp alert) as [[body H]|[p H]];
      rewrite H in H1, H2; [|done].
    injection H1 as <-. injection H2 as <-. split.
    + intros Heq.
      apply string_append_inj_length in Heq as [_ Heq]; [|done].
      by apply string_append_inj_length in Heq as [? _];
        [|rewrite !Time_Format_length].
    + by intros ->.
  - intros e alert alert' Hr Hl. unfold Waze.handleChitChat. by rewrite Hr, Hl.
  - intros fmt_v filters e1 e2 alert Ht Hr.
    unfold Waze.render, Waze.handleChitChat, Waze.handlePoliceAlert, Waze.handleJamAlert,
      Waze.handleAccidentAlert, Waze.handleUnknownAlert.
    by rewrite Ht, Hr.
  - intros fmt_v range1 range2 alert Hr. unfold Bot.handleAlert. simpl. by rewrite Hr.
Qed.

Lemma rendering_depends_on_clock_and_order_witness :
  let t := {| unixNano := 1793456789123456789; Location := -10800 |} in
  let e1 := {| Waze.now := t; Waze.range := map_to_list |} in
  let e2 := {| Waze.now := Time_Add t 1; Waze.range := map_to_list |} in
  let comment : gmap string value :=
    {[ "reportBy" := VString "bob"; "location" := VString "Rua X" ]} in
  Waze.render (fun _ => "") (Waze.Build_Filters true true true true true) e1 comment
  = Waze.render (fun _ => "") (Waze.Build_Filters true true true true true) e2 comment.
Proof.
  refine (proj1 (proj2 (proj2 (proj2 rendering_depends_on_clock_and_order)))
            _ _ _ _ _ _ _).
  - vm_compute. reflexivity.
  - reflexivity.
Defined.

(** ** Waking the subscribers *)

(** A subscriber registers; a first alert is fanned out and leaves one
    signal pending; at the second alert, before the subscriber has received
    the first signal, the send of [main] blocks (the alert is in the log
    already); once the subscriber has received, a wake goes through. *)
Lemma second_wake_blocks_the_dispatcher :
  let a1 : gmap string value := {[ "uuid" := VString "a1"; "type" := VString "JAM" ]} in
  let a2 : gmap string value := {[ "uuid" := VString "a2"; "type" := VString "POLICE" ]} in
  let h0 := Waze.subscribe 7 no_subscriber in
  let h1 := {| Waze.alerts := [a1]; Waze.clients := {[ 7%nat := slot_pending ]} |} in
  let h2 := {| Waze.alerts := [a1; a2]; Waze.clients := {[ 7%nat := slot_pending ]} |} in
  Waze.fan_out a1 [7%nat] h0 = Waze.Completed h1 /\
  Waze.fan_out a2 [7%nat] h1 = Waze.BlockedOn 7 h2 /\
  Waze.receive_wake 7 h2
  = Some {| Waze.alerts := [a1; a2]; Waze.clients := {[ 7%nat := slot_empty ]} |} /\
  Waze.wake [7%nat] {| Waze.alerts := [a1; a2]; Waze.clients := {[ 7%nat := slot_empty ]} |}
  = Waze.Completed h2.
Proof. vm_compute. done. Qed.

Lemma wake_blocks cs c h :
  c ∈ cs -> Waze.clients h !! c = Some slot_pending ->
  exists c' h', Waze.wake cs h = Waze.BlockedOn c' h' /\
                Waze.alerts h' = Waze.alerts h.
Proof.
  revert h. induction cs as [|c0 cs IH]; intros h Hin Hc.
  - by apply elem_of_nil in Hin.
  - cbn [Waze.wake]. destruct (decide (c0 = c)) as [->|Hne].
    + rewrite Hc. cbn. by exists c, h.
    + apply elem_of_cons in Hin as [->|Hin]; [done|].
      destruct (Waze.clients h !! c0) as [ch|] eqn:Hc0; [|by apply IH].
      destruct (Waze.chan_send ch) as [ch'|] eqn:Hsend; [|by exists c0, h].
      destruct (IH {| Waze.alerts := Waze.alerts h;
                      Waze.clients := <[c0 := ch']> (Waze.clients h) |} Hin)
        as (c' & h' & Hw & Ha).
      { cbn. by rewrite lookup_insert_ne. }
      by exists c', h'.
Qed.

Lemma wake_completes cs h :
  NoDup cs ->
  (forall c, c ∈ cs -> Waze.clients h !! c = Some slot_empty) ->
  exists h', Waze.wake cs h = Waze.Completed h' /\
             Waze.alerts h' = Waze.alerts h /\
             (forall c, c ∈ cs -> Waze.clients h' !! c = Some slot_pending) /\
             (forall c, c ∉ cs -> Waze.clients h' !! c = Waze.clients h !! c).
Proof.
  intros Hnd. revert h. induction Hnd as [|c0 cs Hnin Hnd IH]; intros h Hall.
  - exists h. cbn. split; [done|]. split; [done|]. split; [|done].
    intros c Hc. by apply elem_of_nil in Hc.
  - cbn [Waze.wake]. rewrite (Hall c0) by (by left). cbn.
    destruct (IH {| Waze.alerts := Waze.alerts h;
                    Waze.clients := <[c0 := slot_pending]> (Waze.clients h) |})
      as (h' & Hw & Ha & Hin & Hout).
    { intros c Hc. cbn. rewrite lookup_insert_ne by (by intros ->).
      apply Hall. by right. }
    exists h'. split; [exact Hw|]. split; [exact Ha|]. split.
    + intros c Hc. apply elem_of_cons in Hc as [->|Hc]; [|by apply Hin].
      rewrite (Hout c0 Hnin). cbn. by rewrite lookup_insert_eq.
    + intros c Hc. apply not_elem_of_cons in Hc as [Hne Hc].
      rewrite (Hout c Hc). cbn. by rewrite lookup_insert_ne.
Qed.

(** C8, as the code has it.  The wake is a plain send on the subscriber's
    channel of capacity one, made while [main] holds the clients lock.  A
    round that finds every slot empty completes, with the alert in the log
    and exactly one signal pending for each subscriber.  A round that finds
    the slot of some subscriber pending does not complete: the alert is
    appended to the log and [main] then blocks on a send, until a receive
    empties the slot; nothing is coalesced.  A slot never holds more than
    one signal, and a receive on a pending slot leaves it empty. *)
Theorem wake_is_a_blocking_send :
  (forall alert cs h,
     NoDup cs ->
     (forall c, c ∈ cs -> Waze.clients h !! c = Some slot_empty) ->
     exists h', Waze.fan_out alert cs h = Waze.Completed h' /\
                Waze.alerts h' = Waze.alerts h ++ [alert] /\
                (forall c, c ∈ cs -> Waze.clients h' !! c = Some slot_pending)) /\
  (forall alert cs c h,
     c ∈ cs -> Waze.clients h !! c = Some slot_pending ->
     exists c' h', Waze.fan_out alert cs h = Waze.BlockedOn c' h' /\
                   Waze.alerts h' = Waze.alerts h ++ [alert]) /\
  Waze.chan_send slot_empty = Some slot_pending /\
  Waze.chan_send slot_pending = None /\
  Waze.chan_recv slot_pending = Some slot_empty /\
  (forall ch ch',
     (Waze.queued ch <= Waze.cap ch)%nat -> Waze.chan_send ch = Some ch' ->
     (Waze.queued ch' <= Waze.cap ch')%nat) /\
  (forall c h,
     Waze.clients h !! c = Some slot_pending ->
     exists h', Waze.receive_wake c h = Some h' /\
                Waze.clients h' !! c = Some slot_empty /\
                Waze.alerts h' = Waze.alerts h).
Proof.
  split; [|split; [|split; [|split; [|split; [|split]]]]]; try done.
  - intros alert cs h Hnd Hall. unfold Waze.fan_out.
    destruct (wake_completes cs {| Waze.alerts := Waze.alerts h ++ [alert];
                                   Waze.clients := Waze.clients h |} Hnd Hall)
      as (h' & Hw & Ha & Hin & _).
    by exists h'.
  - intros alert cs c h Hin Hc. unfold Waze.fan_out.
    by apply (wake_blocks cs c).
  - intros [cap q] ch' Hle. unfold Waze.chan_send. cbn [Waze.cap Waze.queued] in *.
    destruct (q <? cap)%nat eqn:Hlt; [|done].
    apply Nat.ltb_lt in Hlt. intros [= <-]. cbn [Waze.cap Waze.queued]. lia.
  - intros c h Hc. unfold Waze.receive_wake. rewrite Hc. cbn.
    eexists. split; [done|]. cbn. by rewrite lookup_insert_eq.
Qed.

Lemma wake_is_a_blocking_send_witness :
  exists c' h',
    Waze.fan_out {[ "uuid" := VString "a2" ]} [7%nat]
                 {| Waze.alerts := []; Waze.clients := {[ 7%nat := slot_pending ]} |}
    = Waze.BlockedOn c' h' /\
    Waze.alerts h' = [] ++ [ {[ "uuid" := VString "a2" ]} ].
Proof.
  refine (proj1 (proj2 wake_is_a_blocking_send) _ [7%nat] 7%nat
            {| Waze.alerts := []; Waze.clients := {[ 7%nat := slot_pending ]} |} _ _).
  - apply list_elem_of_here.
  - reflexivity.
Defined.

(** * Further properties of the code *)

(** ** Set *)

Lemma foldl_Set_Add items s :
  set_data (foldl (fun set item => Set_Add item set) s items)
  = set_data s ∪ list_to_set items.
Proof.
  revert s. induction items as [|x items IH]; intros s; simpl; [set_solver|].
  rewrite IH. unfold Set_Add. simpl. set_solver.
Qed.

Lemma StrSet_eq s1 s2 : set_data s1 = set_data s2 -> s1 = s2.
Proof. destruct s1, s2. simpl. by intros ->. Qed.

(** X1. A set built by [NewSet] has exactly the items of the slice, however
    often and in whatever order they occur in it. *)
Theorem NewSet_Has (items : list string) (x : string) :
  Set_Has (NewSet items) x = true <-> x ∈ items.
Proof.
  unfold Set_Has, NewSet. rewrite bool_decide_eq_true, foldl_Set_Add. set_solver.
Qed.

Lemma NewSet_Slice s : NewSet (Set_Slice s) = s.
Proof.
  apply StrSet_eq. unfold NewSet, Set_Slice. rewrite foldl_Set_Add. simpl.
  rewrite list_to_set_elements_L. set_solver.
Qed.

(** X2. [Slice] lists every member once and nothing else, and [NewSet] on
    that slice gives the set back. *)
Theorem Set_Slice_round_trip (s : StrSet) :
  NoDup (Set_Slice s) /\
  (forall x, x ∈ Set_Slice s <-> Set_Has s x = true) /\
  NewSet (Set_Slice s) = s.
Proof.
  unfold Set_Slice. split; [apply NoDup_elements|]. split.
  - intros x. unfold Set_Has. rewrite bool_decide_eq_true. apply elem_of_elements.
  - apply NewSet_Slice.
Qed.

(** X3. [Remove] undoes an [Add] of an item that was not there, [Add] of a
    member changes nothing, and [Remove] takes out the one item only. *)
Theorem Set_Add_Remove :
  (forall s x, Set_Has s x = false -> Set_Remove x (Set_Add x s) = s) /\
  (forall s x, Set_Has s x = true -> Set_Add x s = s) /\
  (forall s x y, Set_Has (Set_Remove x s) y = true <-> x <> y /\ Set_Has s y = true) /\
  (forall s x y, Set_Has (Set_Add x s) y = true <-> x = y \/ Set_Has s y = true).
Proof.
  unfold Set_Has, Set_Remove, Set_Add. split; [|split; [|split]].
  - intros s x Hx. apply bool_decide_eq_false in Hx. apply StrSet_eq. simpl. set_solver.
  - intros s x Hx. apply bool_decide_eq_true in Hx. apply StrSet_eq. simpl. set_solver.
  - intros s x y. rewrite !bool_decide_eq_true. simpl. set_solver.
  - intros s x y. rewrite !bool_decide_eq_true. simpl. set_solver.
Qed.

(** ** Database *)

Lemma decode_members_app l1 l2 acc :
  decode_members (l1 ++ l2) acc = decode_members l2 (decode_members l1 acc).
Proof. unfold decode_members. apply foldl_app. Qed.

Lemma decode_members_lookup_notin l acc k :
  k ∉ l.*1 -> decode_members l acc !! k = acc !! k.
Proof.
  revert acc. induction l as [|[k' j] l IH]; intros acc Hk; simpl; [done|].
  rewrite fmap_cons, not_elem_of_cons in Hk. destruct Hk as [Hne Hk]. simpl in Hne.
  rewrite IH by done. by rewrite lookup_insert_ne.
Qed.

Lemma reread_string_slice x l :
  reread (VStringSlice (x :: l)) = VSlice (VString <$> x :: l).
Proof.
  unfold reread. cbn [encode_value decode_value]. f_equal.
  change (List.map decode_value (List.map JString (x :: l)) = VString <$> x :: l).
  rewrite List.map_map. done.
Qed.

(** X4. What [save] writes, [load] reads back into a new database, key by
    key, as far as JSON keeps it: strings (and booleans, nil, finite
    floats) come back as they were, an [int] comes back as a [float64] and
    a [[]string] as a [[]interface{}] of strings. *)
Theorem Database_save_load (db : Database) (fl : gmap string file) :
  map_Forall (fun _ v => is_Some (encode_value v)) (db_data db) ->
  let fs := (Database_save db {| files := fl; writable := true |}).1 in
  let loaded := (Database_load (NewDatabase (filename db)) fs).1 in
  Database_load (NewDatabase (filename db)) fs
  = ({| filename := filename db; db_data := reread <$> db_data db |}, []) /\
  (forall k s, db_data db !! k = Some (VString s) ->
               db_data loaded !! k = Some (VString s)) /\
  (forall k n, db_data db !! k = Some (VInt n) ->
               db_data loaded !! k = Some (VFloat64 (float64_of_int n))) /\
  (forall k x l, db_data db !! k = Some (VStringSlice (x :: l)) ->
                 db_data loaded !! k = Some (VSlice (VString <$> x :: l))) /\
  (forall k, db_data db !! k = None -> db_data loaded !! k = None).
Proof.
  intros Henc fs loaded.
  destruct (encode_decode_members _ Henc) as (l & Hl & Hdec).
  assert (Hload : Database_load (NewDatabase (filename db)) fs
                  = ({| filename := filename db; db_data := reread <$> db_data db |}, [])).
  { subst fs. unfold Database_load, Database_save, NewDatabase.
    cbn [writable filename db_data files fst]. rewrite Hl. cbn [files fst].
    rewrite lookup_insert_eq. by rewrite Hdec. }
  subst loaded. rewrite Hload. cbn [fst db_data]. split; [done|].
  split; [|split; [|split]].
  - intros k s Hk. by rewrite lookup_fmap, Hk.
  - intros k n Hk. by rewrite lookup_fmap, Hk.
  - intros k x l' Hk. rewrite lookup_fmap, Hk. cbn [fmap option_fmap option_map].
    by rewrite reread_string_slice.
  - intros k Hk. by rewrite lookup_fmap, Hk.
Qed.

Lemma Database_save_load_witness :
  Database_load (NewDatabase "db.json")
    (Database_save {| filename := "db.json";
                      db_data := {[ "maxWazersOnline" := VInt 30 ]} |}
                   {| files := ∅; writable := true |}).1
  = ({| filename := "db.json";
        db_data := reread <$> {[ "maxWazersOnline" := VInt 30 ]} |}, []).
Proof.
  refine (proj1 (Database_save_load
                   {| filename := "db.json";
                      db_data := {[ "maxWazersOnline" := VInt 30 ]} |} ∅ _)).
  apply map_Forall_singleton. by eexists.
Defined.

(** X5. [load] replaces only what the file gives: a file that is missing,
    is not JSON or holds a value other than an object or [null] leaves the
    database as it was and logs one error; an object overwrites the keys it
    has, each with the decoding of its last member of that name, and keeps
    every other key. *)
Theorem Database_load_merges (db : Database) (fs : filesystem) :
  (files fs !! filename db = None \/ files fs !! filename db = Some Undecodable ->
   (Database_load db fs).1 = db /\ length (Database_load db fs).2 = 1%nat) /\
  (forall j, files fs !! filename db = Some (Document j) ->
     (forall l, j <> JObject l) -> j <> JNull ->
     (Database_load db fs).1 = db /\ length (Database_load db fs).2 = 1%nat) /\
  (forall l, files fs !! filename db = Some (Document (JObject l)) ->
     (Database_load db fs).2 = [] /\
     (forall k, k ∉ l.*1 ->
        db_data (Database_load db fs).1 !! k = db_data db !! k) /\
     (forall pre k j post, l = pre ++ (k, j) :: post -> k ∉ post.*1 ->
        db_data (Database_load db fs).1 !! k = Some (decode_value j))).
Proof.
  unfold Database_load. split; [|split].
  - by intros [-> | ->].
  - intros j -> Hobj Hnull. destruct j; try done. by destruct (Hobj l).
  - intros l ->. cbn [fst snd db_data]. split; [done|]. split.
    + intros k Hk. by apply decode_members_lookup_notin.
    + intros pre k j post -> Hk. rewrite decode_members_app.
      change (decode_members ((k, j) :: post) (decode_members pre (db_data db)))
        with (decode_members post (<[k := decode_value j]> (decode_members pre (db_data db)))).
      rewrite decode_members_lookup_notin by done. apply lookup_insert_eq.
Qed.

Lemma Database_load_merges_witness :
  (Database_load {| filename := "db.json"; db_data := {[ "kept" := VBool true ]} |}
                 {| files := ∅; writable := true |}).1
  = {| filename := "db.json"; db_data := {[ "kept" := VBool true ]} |}.
Proof.
  refine (proj1 (proj1 (Database_load_merges
                          {| filename := "db.json"; db_data := {[ "kept" := VBool true ]} |}
                          {| files := ∅; writable := true |}) _)).
  left. reflexivity.
Defined.

(** X6. On one database value, what a setter stored is what the getter
    returns only as long as the file cannot take its place: when the file
    can be neither created nor opened, [GetProcessedAlerts] after
    [SetProcessedAlerts] returns the set that was stored and
    [GetMaxWazersOnline] after [SetMaxWazersOnline] the counter. *)
Theorem Get_after_Set_without_file (alerts : StrSet) (c : Counter) (db : Database)
    (fs : filesystem) :
  writable fs = false ->
  files fs !! filename db = None ->
  (let '(db', fs', _) := SetProcessedAlerts alerts db fs in
   fs' = fs /\ (GetProcessedAlerts db' fs').1.1 = alerts) /\
  (let '(db', fs', _) := SetMaxWazersOnline c db fs in
   fs' = fs /\ (GetMaxWazersOnline db' fs').1.1 = c).
Proof.
  intros Hw Hf.
  unfold SetProcessedAlerts, SetMaxWazersOnline, Database_save,
    GetProcessedAlerts, GetMaxWazersOnline, Database_load.
  cbn [filename db_data]. rewrite Hw. cbn [filename db_data]. rewrite Hf.
  cbn [fst snd db_data]. unfold index. rewrite !lookup_insert_eq.
  cbn [default assert_string_slice_ok assert_int_ok].
  split; (split; [done|]).
  - apply NewSet_Slice.
  - by destruct c.
Qed.

Lemma Get_after_Set_without_file_witness :
  (GetProcessedAlerts
     (SetProcessedAlerts (NewSet ["a1"]) (NewDatabase "db.json")
                         {| files := ∅; writable := false |}).1.1
     {| files := ∅; writable := false |}).1.1
  = NewSet ["a1"].
Proof.
  pose proof (Get_after_Set_without_file (NewSet ["a1"]) (NewCounter 0)
                (NewDatabase "db.json") {| files := ∅; writable := false |}
                eq_refl eq_refl) as [H _].
  exact (proj2 H).
Defined.

(** ** countWazers and sendWazersReport *)

Lemma wrap64_range z : min_int64 <= wrap64 z <= max_int64.
Proof.
  unfold wrap64, min_int64, max_int64.
  pose proof (Z.mod_pos_bound (z - - 2 ^ 63) (2 ^ 64) ltac:(done)). lia.
Qed.

Lemma wrap64_id z : min_int64 <= z <= max_int64 -> wrap64 z = z.
Proof.
  unfold wrap64, min_int64, max_int64. intros Hz.
  rewrite Z.mod_small; lia.
Qed.

Lemma wrap64_add_l a b : wrap64 (wrap64 a + b) = wrap64 (a + b).
Proof.
  unfold wrap64. f_equal.
  replace ((a - min_int64) mod 2 ^ 64 + min_int64 + b - min_int64)
    with ((a - min_int64) mod 2 ^ 64 + b) by lia.
  rewrite Zplus_mod_idemp_l. f_equal. lia.
Qed.

Lemma int_of_float64_range f : min_int64 <= int_of_float64 f <= max_int64.
Proof.
  unfold int_of_float64.
  assert (Hmin : min_int64 <= min_int64 <= max_int64) by (unfold min_int64, max_int64; lia).
  assert (H0 : min_int64 <= 0 <= max_int64) by (unfold min_int64, max_int64; lia).
  destruct (Prim2SF f) as [| | |sgn m e]; try done.
  match goal with |- context [if ?b then _ else _] => destruct b eqn:Hb end; [|done].
  apply andb_true_iff in Hb as [H1 H2]. apply Z.leb_le in H1, H2. done.
Qed.

Lemma sum_wazers_acc l acc :
  Forall (fun jam => well_formed_jam jam = true) l ->
  sum_wazers l acc = Ok (match l with [] => acc | _ => wrap64 (acc + exact_sum l) end).
Proof.
  intros Hl. revert acc. induction Hl as [|jam l Hjam Hl IH]; intros acc; [done|].
  destruct jam as [| | | | |m| |]; try done. cbn [sum_wazers exact_sum].
  unfold well_formed_jam in Hjam. unfold rbind, assert_map.
  destruct (index m "wazersCount") as [| |f| | | | |]; try done.
  cbn [assert_float64]. rewrite IH. f_equal. destruct l as [|jam' l'].
  - cbn [exact_sum]. f_equal. lia.
  - rewrite wrap64_add_l. f_equal. lia.
Qed.

Lemma sum_wazers_panics good bad rest acc :
  Forall (fun jam => well_formed_jam jam = true) good ->
  well_formed_jam bad = false ->
  exists p, sum_wazers (good ++ bad :: rest) acc = Panic p.
Proof.
  intros Hgood Hbad. revert acc. induction Hgood as [|jam l Hjam Hl IH]; intros acc.
  - cbn [app sum_wazers]. unfold well_formed_jam in Hbad. unfold rbind.
    destruct bad as [| | | | |m| |]; try by eexists.
    cbn [assert_map]. destruct (index m "wazersCount"); try done; by eexists.
  - destruct jam as [| | | | |m| |]; try done. cbn [app sum_wazers].
    unfold well_formed_jam in Hjam. unfold rbind, assert_map.
    destruct (index m "wazersCount") as [| |f| | | | |]; try done.
    cbn [assert_float64]. apply IH.
Qed.

(** X7. The sum of [countWazers] over jams that all carry a float64
    [wazersCount] is the sum of the truncated counts reduced to 64 bits,
    and the exact sum whenever that fits an [int]; a jam that is not an
    object or has no float64 [wazersCount] makes the loop panic, whatever
    comes after it. *)
Theorem sum_wazers_wraps :
  (forall l,
     Forall (fun jam => well_formed_jam jam = true) l ->
     sum_wazers l 0 = Ok (wrap64 (exact_sum l)) /\
     (min_int64 <= exact_sum l <= max_int64 -> sum_wazers l 0 = Ok (exact_sum l))) /\
  (forall good bad rest acc,
     Forall (fun jam => well_formed_jam jam = true) good ->
     well_formed_jam bad = false ->
     exists p, sum_wazers (good ++ bad :: rest) acc = Panic p).
Proof.
  split.
  - intros l Hl. rewrite (sum_wazers_acc l 0 Hl).
    assert (H : match l with [] => 0 | _ => wrap64 (0 + exact_sum l) end
                = wrap64 (exact_sum l)).
    { destruct l; [by rewrite wrap64_id by (unfold min_int64, max_int64; simpl; lia)|done]. }
    rewrite H. split; [done|]. intros Hr. by rewrite wrap64_id.
  - apply sum_wazers_panics.
Qed.

Lemma sum_wazers_wraps_witness :
  sum_wazers [VMap {[ "wazersCount" := VFloat64 12 ]};
              VMap {[ "wazersCount" := VFloat64 30.9 ]}] 0
  = Ok (wrap64 (exact_sum [VMap {[ "wazersCount" := VFloat64 12 ]};
                           VMap {[ "wazersCount" := VFloat64 30.9 ]}])).
Proof.
  refine (proj1 (proj1 sum_wazers_wraps _ _)). repeat constructor.
Defined.

(** Two jams with 12 and 30.9 wazers count 42; one jam of 1e30 wazers
    counts the smallest integer. *)
Example sum_wazers_12_30 :
  sum_wazers [VMap {[ "wazersCount" := VFloat64 12 ]};
              VMap {[ "wazersCount" := VFloat64 30.9 ]}] 0 = Ok 42 /\
  sum_wazers [VMap {[ "wazersCount" := VFloat64 1e30 ]}] 0 = Ok min_int64.
Proof. vm_compute. done. Qed.

Lemma sum_wazers_in_range l acc v :
  min_int64 <= acc <= max_int64 -> sum_wazers l acc = Ok v ->
  min_int64 <= v <= max_int64.
Proof.
  revert acc. induction l as [|jam l IH]; intros acc Hacc; cbn [sum_wazers].
  - by intros [= <-].
  - unfold rbind. destruct (assert_map jam) as [m|]; [|done].
    destruct (assert_float64 (index m "wazersCount")) as [f|]; [|done].
    apply IH, wrap64_range.
Qed.

(** X8. [countWazers] never lowers the stored peak: when it returns, the
    peak is the greater of the old peak and the sample; when the response
    has no [usersOnJams] array or a malformed jam it panics and the peak is
    as before; when the request or the decoding fails it logs the error
    and the peak is as before.  A peak that fits an [int] still does
    afterwards. *)
Theorem countWazers_keeps_the_peak (c : Counter) :
  (forall data,
     let r := countWazers data c in
     Counter_Get c <= Counter_Get r.1 /\
     (forall p, r.2 = Panic p -> r.1 = c) /\
     (r.2 = Ok tt ->
      exists usersOnJams v,
        index data "usersOnJams" = VSlice usersOnJams /\
        sum_wazers usersOnJams 0 = Ok v /\
        Counter_Get r.1 = Z.max (Counter_Get c) v) /\
     (min_int64 <= Counter_Get c <= max_int64 ->
      min_int64 <= Counter_Get r.1 <= max_int64)) /\
  countWazers_job GetError c
  = (c, Ok ["contando motoristas"; "ERROR: can't count wazers"]) /\
  (forall body, decode_response body = None ->
     countWazers_job (Response body) c
     = (c, Ok ["contando motoristas"; "ERROR: can't decode response"])) /\
  (forall body data, decode_response body = Some data ->
     (countWazers_job (Response body) c).1 = (countWazers data c).1).
Proof.
  split; [|split; [done|split]].
  - intros data r. subst r. unfold countWazers, bind, lift, modify.
    destruct (index data "usersOnJams") as [| | | |l| | |] eqn:Hd;
      cbn [assert_slice fst snd];
      try (split; [lia|]; split; [done|]; split; [done|done]).
    destruct (sum_wazers l 0) as [v|p] eqn:Hs; cbn [fst snd].
    + rewrite observe_max. split; [lia|]. split; [done|]. split.
      * intros _. by exists l, v.
      * intros Hc. pose proof (sum_wazers_in_range l 0 v) as Hv.
        assert (min_int64 <= v <= max_int64)
          by (apply Hv; [unfold min_int64, max_int64; lia | done]).
        lia.
    + split; [lia|]. split; [done|]. split; [done|done].
  - intros body Hb. unfold countWazers_job. by rewrite Hb.
  - intros body data Hb. unfold countWazers_job. rewrite Hb. unfold bind, ret.
    by destruct (countWazers data c) as [c' [[]|p]].
Qed.

Lemma countWazers_keeps_the_peak_witness :
  countWazers_job (Response Undecodable) (NewCounter 7)
  = (NewCounter 7, Ok ["contando motoristas"; "ERROR: can't decode response"]).
Proof.
  refine (proj1 (proj2 (proj2 (countWazers_keeps_the_peak (NewCounter 7)))) _ _).
  reflexivity.
Defined.

(** X9. [sendWazersReport] sends a message exactly when the peak is
    positive, leaves the smaller of the peak and 0 in the counter, and a
    second report right after sends nothing and changes nothing. *)
Theorem sendWazersReport_once (c : Counter) :
  let r := sendWazersReport c in
  (r.1 <> [] <-> 0 < Counter_Get c) /\
  (0 < Counter_Get c ->
   r.1 = [Message (fmt_d (Counter_Get c) +:+ " wazers conectados 🚙 🚕 🚚")]) /\
  Counter_Get r.2 = Z.min (Counter_Get c) 0 /\
  sendWazersReport r.2 = ([], r.2).
Proof.
  unfold sendWazersReport, Counter_Set, Counter_Get. destruct c as [n]. cbn [count].
  destruct (Z.gtb_spec n 0) as [Hgt|Hle]; cbn [fst snd count].
  - split; [split; [lia|done]|]. split; [done|]. split; [lia|done].
  - split; [split; [done|lia]|]. split; [lia|]. split; [lia|].
    destruct (Z.gtb_spec n 0); [lia|done].
Qed.

(** ** Successive ticks of a task *)

Lemma next_tick_after_boundary b d :
  on_minute b -> 0 <= d ->
  let next := unixNano (next_tick (Time_Add b d)).1 in
  unixNano b < next /\
  (next - unixNano b) mod Minute_ns = 0 /\
  (d < Minute_ns -> next = unixNano b + Minute_ns).
Proof.
  intros [Hs Hn] Hd next. subst next. rewrite next_tick_unixNano.
  unfold Time_Second, Time_Nanosecond, local_sec, Time_Add, Minute_ns, second_ns in *.
  cbn [unixNano Location].
  Z.div_mod_to_equations. lia.
Qed.

(** X10. The instants a task sleeps until, round after round, grow by
    whole minutes: each is later than the one before by a positive number
    of minutes, and by exactly one minute whenever the lateness of the
    timer and the duration of the job add up to less than a minute, so a
    job that takes longer makes its task skip ticks. *)
Theorem scheduleJob_ticks_by_minutes (rounds : list (Z * Z)) (now : Time)
    (i : nat) (late took t1 t2 : Z) :
  rounds !! i = Some (late, took) ->
  0 <= late -> 0 <= took ->
  ticks rounds now !! i = Some t1 ->
  ticks rounds now !! S i = Some t2 ->
  t1 < t2 /\ (t2 - t1) mod Minute_ns = 0 /\
  (late + took < Minute_ns -> t2 = t1 + Minute_ns).
Proof.
  unfold ticks. revert now i. induction rounds as [|[l0 k0] rounds IH]; intros now i Hr Hl Hk.
  - by rewrite lookup_nil in Hr.
  - destruct i as [|i].
    + injection Hr as -> ->. cbn [scheduleJob]. 
      destruct (next_tick now) as [next d] eqn:Hnt. cbn [fmap list_fmap lookup list_lookup].
      intros [= <-]. destruct rounds as [|[l1 k1] rounds']; [done|].
      cbn [scheduleJob]. 
      destruct (next_tick (Time_Add (Time_Add now (d + late)) took)) as [next2 d2] eqn:Hnt2.
      cbn [fmap list_fmap lookup list_lookup fst snd]. intros [= <-].
      assert (Hnext : next = (next_tick now).1) by (by rewrite Hnt).
      assert (Hd : d = unixNano next - unixNano now).
      { pose proof (f_equal snd Hnt) as H. cbn in H. rewrite Hnext. by rewrite <- H. }
      assert (Hstart : Time_Add (Time_Add now (d + late)) took = Time_Add next (late + took)).
      { unfold Time_Add. cbn [unixNano Location]. rewrite Hd. f_equal; [lia|].
        by rewrite Hnext. }
      rewrite Hstart in Hnt2.
      pose proof (next_tick_after_boundary next (late + took)) as Hb.
      rewrite Hnt2 in Hb. cbn [fst] in Hb. apply Hb; [|lia].
      rewrite Hnext. apply next_tick_on_minute.
    + cbn [lookup list_lookup] in Hr. cbn [scheduleJob].
      destruct (next_tick now) as [next d]. cbn [fmap list_fmap].
      intros H1 H2. by eapply IH.
Qed.

Lemma scheduleJob_ticks_by_minutes_witness :
  let now := {| unixNano := 1793456789123456789; Location := -10800 |} in
  1793456820000000000 < 1793456880000000000 /\
  (1793456880000000000 - 1793456820000000000) mod Minute_ns = 0 /\
  (5 + 100 < Minute_ns -> 1793456880000000000 = 1793456820000000000 + Minute_ns).
Proof.
  refine (scheduleJob_ticks_by_minutes [(5, 100); (0, 0)]
            {| unixNano := 1793456789123456789; Location := -10800 |}
            0 5 100 _ _ _ _ _ _ _); try reflexivity; lia.
Defined.

(** ** What a batch dispatches *)

Lemma uuid_of_Some m id : uuid_of m = Some id <-> index m "uuid" = VString id.
Proof.
  unfold uuid_of. destruct (index m "uuid"); split; intros H; by simplify_eq.
Qed.

Lemma first_unseen_skip m id batch seen sent :
  uuid_of m = Some id -> id ∈ seen ->
  first_unseen batch seen sent -> first_unseen (m :: batch) seen sent.
Proof.
  intros Hm Hin (Hsub & Hnd & Hids & Hfirst). split; [by apply sublist_cons|].
  split; [done|]. split.
  - intros id'. rewrite Hids. cbn [omap list_omap]. rewrite Hm. set_solver.
  - intros m' id' Hm' Hid'. destruct (Hfirst m' id' Hm' Hid') as (pre & post & -> & Hpre).
    exists (m :: pre), post. split; [done|]. cbn [omap list_omap]. rewrite Hm.
    assert (id' ∈ omap uuid_of sent) as Hs.
    { apply list_elem_of_omap. by exists m'. }
    apply Hids in Hs as [_ Hs]. set_solver.
Qed.

Lemma first_unseen_send m id batch seen sent :
  uuid_of m = Some id -> id ∉ seen ->
  first_unseen batch ({[id]} ∪ seen) sent -> first_unseen (m :: batch) seen (m :: sent).
Proof.
  intros Hm Hin (Hsub & Hnd & Hids & Hfirst). split; [by apply sublist_skip|].
  split; [|split].
  - cbn [omap list_omap]. rewrite Hm. apply NoDup_cons. split; [|done].
    intros Hs. apply Hids in Hs. set_solver.
  - intros id'. cbn [omap list_omap]. rewrite Hm, !elem_of_cons, Hids.
    destruct (decide (id' = id)) as [->|Hne]; set_solver.
  - intros m' id' Hm' Hid'. apply elem_of_cons in Hm' as [->|Hm'].
    + exists [], batch. split; [done|]. apply not_elem_of_nil.
    + destruct (Hfirst m' id' Hm' Hid') as (pre & post & -> & Hpre).
      exists (m :: pre), post. split; [done|]. cbn [omap list_omap]. rewrite Hm.
      assert (id' ∈ omap uuid_of sent) as Hs.
      { apply list_elem_of_omap. by exists m'. }
      apply Hids in Hs as [_ Hs]. set_solver.
Qed.

Lemma for_range_step_first_unseen batch st :
  Forall (fun m => is_Some (uuid_of m)) batch ->
  exists tr,
    trace (for_range (VMap <$> batch) (step Sent) st).1 = trace st ++ tr /\
    first_unseen batch (set_data (processedAlerts st)) (sent_alerts tr).
Proof.
  intros Hb. revert st. induction Hb as [|m batch [id Hm] Hb IH]; intros st.
  - exists []. split; [by rewrite app_nil_r|]. split; [done|]. split; [constructor|].
    split; [set_solver|]. intros m id Hm. by apply elem_of_nil in Hm.
  - cbn [fmap list_fmap for_range]. unfold bind. cbn [step].
    rewrite (proj1 (uuid_of_Some m id) Hm). unfold Set_Has. case_bool_decide as Hin.
    + destruct (IH st) as (tr & Ht & Hf). exists tr. split; [done|].
      by eapply first_unseen_skip.
    + match goal with |- context [for_range _ _ ?st1] =>
        destruct (IH st1) as (tr & Ht & Hf) end.
      exists (Sent m :: Added id :: tr). split.
      * rewrite Ht. cbn [trace]. by rewrite <- app_assoc.
      * cbn [processedAlerts Set_Add set_data] in Hf.
        by apply (first_unseen_send m id).
Qed.

Lemma processAlerts_first_unseen (batch : list (gmap string value)) (seen : StrSet) :
  Forall (fun m => is_Some (uuid_of m)) batch ->
  first_unseen batch (set_data seen)
    (sent_alerts (trace (Waze.processAlerts (VMap <$> batch) (fresh seen)).1)).
Proof.
  intros Hb. rewrite Waze_processAlerts_step.
  destruct (for_range_step_first_unseen batch
              (record (Logged "processando alertas") (fresh seen)) Hb) as (tr & Ht & Hf).
  rewrite Ht. cbn [record fresh trace app]. exact Hf.
Qed.

(** X11. What [processAlerts] sends on [alertsCh] for a batch of records
    with identifiers is fixed by the batch and the set: the records, in
    the order of the batch, that are the first of the batch with their
    identifier and whose identifier the set does not hold; no identifier
    is sent twice. *)
Theorem processAlerts_sends_first_unseen (batch : list (gmap string value))
    (seen : StrSet) :
  Forall (fun m => is_Some (uuid_of m)) batch ->
  first_unseen batch (set_data seen)
    (sent_alerts (trace (Waze.processAlerts (VMap <$> batch) (fresh seen)).1)).
Proof. apply processAlerts_first_unseen. Qed.

Lemma processAlerts_sends_first_unseen_witness :
  first_unseen
    [ {[ "uuid" := VString "a1" ]}; {[ "uuid" := VString "a1" ]};
      {[ "uuid" := VString "a2" ]} ]
    (set_data (NewSet []))
    (sent_alerts (trace (Waze.processAlerts
                           (VMap <$> [ {[ "uuid" := VString "a1" ]};
                                       {[ "uuid" := VString "a1" ]};
                                       {[ "uuid" := VString "a2" ]} ])
                           (fresh (NewSet []))).1)).
Proof.
  apply processAlerts_sends_first_unseen. repeat constructor; by eexists.
Defined.

(** ** The set only grows, and the two [processAlerts] agree *)

Lemma for_range_step_bound disp l st :
  set_data (processedAlerts (for_range l (step disp) st).1)
  ⊆ set_data (processedAlerts st) ∪ alert_ids l.
Proof.
  revert st. induction l as [|alert l IH]; intros st; cbn [for_range].
  - unfold ret. cbn [fst]. set_solver.
  - unfold bind, alert_ids. cbn [omap list_omap]. fold (alert_ids l).
    destruct alert as [| | | | |m| |]; cbn [step fst]; try set_solver.
    unfold alert_id, rbind. cbn [assert_map].
    destruct (index m "uuid") as [| | |id| | | |]; cbn [assert_string fst]; try set_solver.
    destruct (Set_Has (processedAlerts st) id).
    + specialize (IH st). set_solver.
    + match goal with |- context [for_range l _ ?st1] => specialize (IH st1) end.
      cbn [processedAlerts Set_Add set_data] in IH. set_solver.
Qed.

(** X12. Whatever the batch, and also when the call panics, [processAlerts]
    only adds to the processed-alerts set, only identifiers of records of
    the batch, and only appends to what was done before. *)
Theorem processAlerts_only_adds (batch : list value) (st : pipeline) :
  let w := (Waze.processAlerts batch st).1 in
  let b := (Bot.processAlerts batch st).1 in
  (set_data (processedAlerts st) ⊆ set_data (processedAlerts w) /\
   set_data (processedAlerts w) ⊆ set_data (processedAlerts st) ∪ alert_ids batch /\
   trace st `prefix_of` trace w) /\
  (set_data (processedAlerts st) ⊆ set_data (processedAlerts b) /\
   set_data (processedAlerts b) ⊆ set_data (processedAlerts st) ∪ alert_ids batch /\
   trace st `prefix_of` trace b).
Proof.
  intros w b. subst w b. rewrite Waze_processAlerts_step, Bot_processAlerts_step.
  split.
  - destruct (for_range_step_run Sent batch
                (record (Logged "processando alertas") st)) as (tr & Ht & Hrun).
    split; [by apply run_grows in Hrun|].
    split; [exact (for_range_step_bound Sent batch
                     (record (Logged "processando alertas") st))|].
    rewrite Ht. cbn [record trace]. rewrite <- app_assoc. by eexists.
  - destruct (for_range_step_run (fun m => Spawned (VMap m)) batch
                (record (Logged "processando alertas") st)) as (tr & Ht & Hrun).
    split; [by apply run_grows in Hrun|].
    split; [exact (for_range_step_bound (fun m => Spawned (VMap m)) batch
                     (record (Logged "processando alertas") st))|].
    rewrite Ht. cbn [record trace]. rewrite <- app_assoc. by eexists.
Qed.

Lemma for_range_step_agree l st1 st2 :
  processedAlerts st1 = processedAlerts st2 ->
  let r1 := for_range l (step Sent) st1 in
  let r2 := for_range l (step (fun m => Spawned (VMap m))) st2 in
  r1.2 = r2.2 /\ processedAlerts r1.1 = processedAlerts r2.1 /\
  exists tr1 tr2,
    trace r1.1 = trace st1 ++ tr1 /\ trace r2.1 = trace st2 ++ tr2 /\
    spawned_alerts tr2 = VMap <$> sent_alerts tr1.
Proof.
  revert st1 st2. induction l as [|alert l IH]; intros st1 st2 Hst; cbn [for_range].
  - unfold ret. cbn [fst snd]. split; [done|]. split; [done|].
    exists [], []. by rewrite !app_nil_r.
  - unfold bind.
    assert (Hstop : forall p,
              (((st1, @Panic unit p).2 = (st2, @Panic unit p).2) /\
               processedAlerts (st1, @Panic unit p).1 = processedAlerts (st2, @Panic unit p).1 /\
               exists tr1 tr2,
                 trace (st1, @Panic unit p).1 = trace st1 ++ tr1 /\
                 trace (st2, @Panic unit p).1 = trace st2 ++ tr2 /\
                 spawned_alerts tr2 = VMap <$> sent_alerts tr1)).
    { intros p. cbn [fst snd]. split; [done|]. split; [done|].
      exists [], []. by rewrite !app_nil_r. }
    destruct alert as [| | | | |m| |]; cbn [step]; try apply Hstop.
    destruct (index m "uuid") as [| | |id| | | |]; try apply Hstop.
    rewrite Hst. destruct (Set_Has (processedAlerts st2) id).
    + by apply IH.
    + match goal with
      |- context [for_range l (step Sent) ?a] =>
        match goal with
        |- context [for_range l (step (fun m => Spawned (VMap m))) ?b] =>
          destruct (IH a b eq_refl) as (Hr & Hs & tr1 & tr2 & H1 & H2 & Hsp)
        end
      end.
      split; [done|]. split; [done|].
      exists (Sent m :: Added id :: tr1), (Spawned (VMap m) :: Added id :: tr2).
      rewrite H1, H2. cbn [trace]. rewrite <- !app_assoc. split; [done|]. split; [done|].
      change (spawned_alerts (Spawned (VMap m) :: Added id :: tr2))
        with (VMap m :: spawned_alerts tr2).
      change (sent_alerts (Sent m :: Added id :: tr1)) with (m :: sent_alerts tr1).
      by rewrite Hsp.
Qed.

(** X13. The [processAlerts] of waze.go and that of the bot do the same
    deduplication: on any batch and from any set they end alike (both
    return, or both panic with the same panic), leave the same set, and
    the bot starts a handler for exactly the alerts, in the same order,
    that waze.go sends on its channel. *)
Theorem processAlerts_variants_agree (batch : list value) (seen : StrSet) :
  let w := Waze.processAlerts batch (fresh seen) in
  let b := Bot.processAlerts batch (fresh seen) in
  w.2 = b.2 /\
  processedAlerts w.1 = processedAlerts b.1 /\
  spawned_alerts (trace b.1) = VMap <$> sent_alerts (trace w.1) /\
  sent_alerts (trace b.1) = [] /\ spawned_alerts (trace w.1) = [].
Proof.
  intros w b. subst w b. rewrite Waze_processAlerts_step, Bot_processAlerts_step.
  destruct (for_range_step_agree batch
              (record (Logged "processando alertas") (fresh seen))
              (record (Logged "processando alertas") (fresh seen)) eq_refl)
    as (Hr & Hs & tr1 & tr2 & H1 & H2 & Hsp).
  split; [done|]. split; [done|]. rewrite H1, H2. cbn [record fresh trace app].
  change (spawned_alerts (Logged "processando alertas" :: tr2)) with (spawned_alerts tr2).
  change (sent_alerts (Logged "processando alertas" :: tr1)) with (sent_alerts tr1).
  change (sent_alerts (Logged "processando alertas" :: tr2)) with (sent_alerts tr2).
  change (spawned_alerts (Logged "processando alertas" :: tr1)) with (spawned_alerts tr1).
  split; [done|].
  destruct (for_range_step_run Sent batch
              (record (Logged "processando alertas") (fresh seen))) as (t1 & Ht1 & Hrun1).
  destruct (for_range_step_run (fun m => Spawned (VMap m)) batch
              (record (Logged "processando alertas") (fresh seen))) as (t2 & Ht2 & Hrun2).
  rewrite H1 in Ht1. rewrite H2 in Ht2.
  apply app_inv_head in Ht1, Ht2. subst t1 t2. split.
  - clear -Hrun2. induction Hrun2; [done|]. done.
  - clear -Hrun1. induction Hrun1; [done|]. done.
Qed.

(** ** The log and the subscribers *)

Lemma wake_keeps cs h :
  Waze.alerts (progress_hub (Waze.wake cs h)) = Waze.alerts h /\
  dom (Waze.clients (progress_hub (Waze.wake cs h))) = dom (Waze.clients h) /\
  (forall c ch', Waze.clients (progress_hub (Waze.wake cs h)) !! c = Some ch' ->
     exists ch, Waze.clients h !! c = Some ch /\
                (Waze.queued ch <= Waze.queued ch')%nat /\ Waze.cap ch' = Waze.cap ch).
Proof.
  revert h. induction cs as [|c0 cs IH]; intros h; cbn [Waze.wake].
  - cbn [progress_hub]. split; [done|]. split; [done|]. intros c ch' Hc. by exists ch'.
  - destruct (Waze.clients h !! c0) as [ch0|] eqn:Hc0; [|apply IH].
    destruct (Waze.chan_send ch0) as [ch0'|] eqn:Hsend.
    + destruct (IH {| Waze.alerts := Waze.alerts h;
                      Waze.clients := <[c0 := ch0']> (Waze.clients h) |})
        as (Ha & Hd & Hq).
      cbn [Waze.alerts Waze.clients] in *. split; [done|]. split.
      * rewrite Hd, dom_insert_L. apply elem_of_dom_2 in Hc0. set_solver.
      * intros c ch' Hc. destruct (Hq c ch' Hc) as (ch & Hch & Hle & Hcap).
        unfold Waze.chan_send in Hsend.
        destruct (Waze.queued ch0 <? Waze.cap ch0)%nat; [|done].
        injection Hsend as <-.
        destruct (decide (c0 = c)) as [->|Hne].
        -- rewrite lookup_insert_eq in Hch. injection Hch as <-.
           exists ch0. cbn [Waze.queued Waze.cap] in *. split; [done|]. split; [lia|done].
        -- rewrite lookup_insert_ne in Hch by done. by exists ch.
    + cbn [progress_hub]. split; [done|]. split; [done|]. intros c ch' Hc. by exists ch'.
Qed.

Lemma main_loop_log (alertsCh : list (gmap string value))
    (order : gmap nat Waze.chan -> list nat) (h : Waze.hub) :
  let r := Waze.main_loop alertsCh order h in
  (exists k, Waze.alerts (progress_hub r) = Waze.alerts h ++ take k alertsCh /\
             (forall h', r = Waze.Completed h' -> k = length alertsCh)) /\
  dom (Waze.clients (progress_hub r)) = dom (Waze.clients h) /\
  (Waze.clients h = ∅ ->
   r = Waze.Completed {| Waze.alerts := Waze.alerts h ++ alertsCh; Waze.clients := ∅ |}).
Proof.
  revert h. induction alertsCh as [|alert rest IH]; intros h; cbn [Waze.main_loop].
  - cbn [progress_hub]. split; [|split; [done|]].
    + exists 0%nat. split; [by rewrite app_nil_r|done].
    + intros Hc. rewrite app_nil_r. destruct h as [a c]. cbn in *. by subst c.
  - unfold Waze.fan_out.
    set (h1 := {| Waze.alerts := Waze.alerts h ++ [alert];
                  Waze.clients := Waze.clients h |}).
    destruct (wake_keeps (order (Waze.clients h)) h1) as (Ha & Hd & _).
    destruct (Waze.wake (order (Waze.clients h)) h1) as [h2|c h2] eqn:Hw;
      cbn [progress_hub] in Ha, Hd.
    + destruct (IH h2) as ((k & Hk & Hlen) & Hdom & Hempty). split; [|split].
      * exists (S k). rewrite Hk, Ha. cbn [take Waze.alerts h1].
        rewrite <- app_assoc. split; [done|]. intros h' Hh'. cbn [length]. f_equal.
        by apply (Hlen h').
      * by rewrite Hdom, Hd.
      * intros Hc. rewrite Hempty.
        -- rewrite Ha. cbn [Waze.alerts h1]. by rewrite <- app_assoc.
        -- apply dom_empty_inv_L. rewrite Hd. cbn [Waze.clients h1]. rewrite Hc.
           apply dom_empty_L.
    + cbn [progress_hub]. split; [|split].
      * exists 1%nat. rewrite Ha. cbn [take Waze.alerts h1]. split; [done|]. done.
      * by rewrite Hd.
      * intros Hc. exfalso. clear -Hw Hc. subst h1.
        revert Hw. generalize (order (Waze.clients h)). intros cs.
        generalize (Waze.alerts h ++ [alert]). intros a. rewrite Hc.
        induction cs as [|c0 cs IHcs]; cbn [Waze.wake Waze.clients]; [done|].
        by rewrite lookup_empty.
Qed.

(** X14. The loop of [main] only ever appends to the log, in the order
    received, and never registers or drops a subscriber or takes a signal
    back: whether it completes or blocks, the log is the old log followed
    by the alerts received so far, all of them when it completes; with no
    subscriber it always completes. *)
Theorem main_loop_appends (alertsCh : list (gmap string value))
    (order : gmap nat Waze.chan -> list nat) (h : Waze.hub) :
  let r := Waze.main_loop alertsCh order h in
  (exists k, Waze.alerts (progress_hub r) = Waze.alerts h ++ take k alertsCh /\
             (forall h', r = Waze.Completed h' -> k = length alertsCh)) /\
  dom (Waze.clients (progress_hub r)) = dom (Waze.clients h) /\
  (Waze.clients h = ∅ ->
   r = Waze.Completed {| Waze.alerts := Waze.alerts h ++ alertsCh; Waze.clients := ∅ |}).
Proof. apply main_loop_log. Qed.

(** X15. End to end, with no subscriber registered: a batch of records
    with identifiers, ingested and then fanned out by [main], extends the
    log by exactly the records that are first with their identifier and
    not in the set, in the order of the batch, and the set then holds
    every identifier of the batch. *)
Theorem ingest_then_log (batch : list (gmap string value)) (seen : StrSet)
    (log : list (gmap string value)) (order : gmap nat Waze.chan -> list nat) :
  Forall (fun m => is_Some (uuid_of m)) batch ->
  let st := (Waze.processAlerts (VMap <$> batch) (fresh seen)).1 in
  exists sent,
    first_unseen batch (set_data seen) sent /\
    Waze.main_loop (sent_alerts (trace st)) order
                   {| Waze.alerts := log; Waze.clients := ∅ |}
    = Waze.Completed {| Waze.alerts := log ++ sent; Waze.clients := ∅ |} /\
    (forall m id, m ∈ batch -> uuid_of m = Some id ->
                  Set_Has (processedAlerts st) id = true).
Proof.
  intros Hb st. exists (sent_alerts (trace st)). split; [|split].
  - by apply processAlerts_first_unseen.
  - by apply (main_loop_log _ order {| Waze.alerts := log; Waze.clients := ∅ |}).
  - intros m id Hm Hid. unfold Set_Has. apply bool_decide_eq_true.
    subst st. rewrite Waze_processAlerts_step.
    assert (Hwf : Forall (fun alert => is_ok (alert_id alert) = true) (VMap <$> batch)).
    { apply Forall_fmap. eapply Forall_impl; [exact Hb|]. intros m' [id' Hm'].
      unfold compose, alert_id, rbind. cbn [assert_map].
      apply uuid_of_Some in Hm'. by rewrite Hm'. }
    destruct (for_range_step_ok Sent (VMap <$> batch)
                (record (Logged "processando alertas") (fresh seen)) Hwf) as [_ ->].
    apply elem_of_union_r. unfold alert_ids. apply elem_of_list_to_set.
    apply list_elem_of_omap. exists (VMap m). split; [by apply list_elem_of_fmap_2|].
    unfold alert_id, rbind. cbn [assert_map]. apply uuid_of_Some in Hid. by rewrite Hid.
Qed.

Lemma ingest_then_log_witness :
  exists sent,
    first_unseen [ {[ "uuid" := VString "a1" ]}; {[ "uuid" := VString "a1" ]} ]
                 (set_data (NewSet [])) sent /\
    Waze.main_loop
      (sent_alerts (trace (Waze.processAlerts
                             (VMap <$> [ {[ "uuid" := VString "a1" ]};
                                         {[ "uuid" := VString "a1" ]} ])
                             (fresh (NewSet []))).1))
      (fun cl => elements (dom cl)) {| Waze.alerts := []; Waze.clients := ∅ |}
    = Waze.Completed {| Waze.alerts := [] ++ sent; Waze.clients := ∅ |}.
Proof.
  destruct (ingest_then_log [ {[ "uuid" := VString "a1" ]}; {[ "uuid" := VString "a1" ]} ]
              (NewSet []) [] (fun cl => elements (dom cl))) as (sent & H1 & H2 & _).
  - repeat constructor; by eexists.
  - by exists sent.
Defined.

(** X16. A subscriber that registered before a dispatch has one signal
    pending after it, which its receive takes; one that has unsubscribed
    gets none, whatever the order of the round; and a round changes no
    slot of a subscriber it does not reach. *)
Theorem subscriber_wake (alert : gmap string value) (c : nat) (h : Waze.hub) :
  (forall cs,
     NoDup cs -> c ∈ cs ->
     (forall c', c' ∈ cs -> c' <> c -> Waze.clients h !! c' = Some slot_empty) ->
     exists h', Waze.fan_out alert cs (Waze.subscribe c h) = Waze.Completed h' /\
                Waze.clients h' !! c = Some slot_pending /\
                exists h'', Waze.receive_wake c h' = Some h'' /\
                            Waze.clients h'' !! c = Some slot_empty) /\
  (forall cs,
     Waze.clients (progress_hub (Waze.fan_out alert cs (Waze.unsubscribe c h))) !! c
     = None) /\
  (forall cs, c ∉ cs ->
     Waze.clients (progress_hub (Waze.fan_out alert cs h)) !! c = Waze.clients h !! c).
Proof.
  split; [|split].
  - intros cs Hnd Hc Hothers. unfold Waze.fan_out.
    destruct (wake_completes cs
                {| Waze.alerts := Waze.alerts (Waze.subscribe c h) ++ [alert];
                   Waze.clients := Waze.clients (Waze.subscribe c h) |} Hnd)
      as (h' & Hw & _ & Hin & _).
    { intros c' Hc'. cbn [Waze.clients Waze.subscribe].
      destruct (decide (c' = c)) as [->|Hne]; [by rewrite lookup_insert_eq|].
      rewrite lookup_insert_ne by done. by apply Hothers. }
    exists h'. split; [done|]. split; [by apply Hin|].
    unfold Waze.receive_wake. rewrite (Hin c Hc). cbn.
    eexists. split; [done|]. cbn. by rewrite lookup_insert_eq.
  - intros cs. unfold Waze.fan_out.
    destruct (wake_keeps cs
                {| Waze.alerts := Waze.alerts (Waze.unsubscribe c h) ++ [alert];
                   Waze.clients := Waze.clients (Waze.unsubscribe c h) |})
      as (_ & Hd & _).
    apply not_elem_of_dom. rewrite Hd. cbn [Waze.clients Waze.unsubscribe].
    rewrite dom_delete_L. set_solver.
  - intros cs Hc. unfold Waze.fan_out.
    generalize (Waze.alerts h ++ [alert]). intros a.
    assert (Hgen : forall h0, Waze.clients (progress_hub (Waze.wake cs h0)) !! c
                              = Waze.clients h0 !! c).
    { induction cs as [|c0 cs IH]; intros h0; cbn [Waze.wake]; [done|].
      apply not_elem_of_cons in Hc as [Hne Hc].
      destruct (Waze.clients h0 !! c0) as [ch0|]; [|by apply IH].
      destruct (Waze.chan_send ch0) as [ch0'|]; [|done].
      rewrite IH by done. cbn [Waze.clients]. by rewrite lookup_insert_ne. }
    apply (Hgen {| Waze.alerts := a; Waze.clients := Waze.clients h |}).
Qed.

Lemma subscriber_wake_witness :
  exists h', Waze.fan_out {[ "uuid" := VString "a1" ]} [7%nat]
                          (Waze.subscribe 7 no_subscriber) = Waze.Completed h' /\
             Waze.clients h' !! 7%nat = Some slot_pending.
Proof.
  destruct (proj1 (subscriber_wake {[ "uuid" := VString "a1" ]} 7 no_subscriber) [7%nat])
    as (h' & H1 & H2 & _).
  - apply NoDup_singleton.
  - apply list_elem_of_here.
  - intros c' Hc' Hne. apply list_elem_of_singleton in Hc'. done.
  - by exists h'.
Defined.

(** ** What a wake writes to a subscriber *)

Lemma render_all_on fmt_v e alert :
  renderable alert ->
  exists message, Waze.render fmt_v all_on e alert = Ok message /\
                  String.eqb message "" = false.
Proof.
  intros (ty & Hty & Hcc). unfold Waze.render, rbind, index. rewrite Hty. simpl.
  destruct (String.eqb_spec ty "CHIT_CHAT") as [Heq|Hne].
  - destruct (Hcc Heq) as (r & l & Hr & Hl).
    destruct (handleChitChat_rendered e alert r l Hr Hl) as [-> _]. by eexists.
  - destruct (String.eqb ty "POLICE" || String.eqb ty "POLICEMAN"); [by eexists|].
    destruct (String.eqb ty "JAM"); [by eexists|].
    destruct (String.eqb ty "ACCIDENT"); by eexists.
Qed.

Lemma render_all_off fmt_v e alert ty :
  alert !! "type" = Some (VString ty) ->
  Waze.render fmt_v all_off e alert = Ok "".
Proof.
  intros Hty. unfold Waze.render, rbind, index. rewrite Hty. simpl.
  destruct (String.eqb ty "CHIT_CHAT"); [done|].
  destruct (String.eqb ty "POLICE" || String.eqb ty "POLICEMAN"); [done|].
  destruct (String.eqb ty "JAM"); [done|].
  by destruct (String.eqb ty "ACCIDENT").
Qed.

(** X17. A wake does not send the new alert, it replays the log: with
    every filter on and a log of renderable alerts, each wake writes one
    event per alert of the whole log after whatever was written before;
    with every filter off it writes nothing, and then a comment without
    reportBy or location does no harm; an alert without a string type
    stops the replay with a panic, the events before it written. *)
Theorem send_events_replays_the_log (fmt_v : value -> string) (clock : nat -> Waze.env) :
  (forall alerts i written,
     Forall renderable alerts ->
     exists events,
       Waze.send_events fmt_v all_on clock i alerts written = (written ++ events, Ok tt) /\
       length events = length alerts) /\
  (forall alerts i written,
     Forall (fun alert => exists ty, alert !! "type" = Some (VString ty)) alerts ->
     Waze.send_events fmt_v all_off clock i alerts written = (written, Ok tt)) /\
  (forall good bad rest i written,
     Forall renderable good ->
     (forall ty, bad !! "type" <> Some (VString ty)) ->
     exists events,
       Waze.send_events fmt_v all_on clock i (good ++ bad :: rest) written
       = (written ++ events, Panic (InterfaceConversion (index bad "type") TString)) /\
       length events = length good).
Proof.
  split; [|split].
  - intros alerts i written Hall. revert i written.
    induction Hall as [|alert alerts Ha Hall IH]; intros i written.
    + exists []. by rewrite app_nil_r.
    + cbn [Waze.send_events]. unfold bind, lift.
      destruct (render_all_on fmt_v (clock i) alert Ha) as (message & -> & ->).
      unfold modify.
      destruct (IH (S i) (written ++ ["data: " +:+ message +:+ nl +:+ nl]))
        as (events & -> & Hlen).
      exists (("data: " +:+ message +:+ nl +:+ nl) :: events).
      rewrite <- app_assoc. split; [done|]. cbn [length]. by rewrite Hlen.
  - intros alerts i written Hall. revert i written.
    induction Hall as [|alert alerts [ty Hty] Hall IH]; intros i written; [done|].
    cbn [Waze.send_events]. unfold bind, lift.
    rewrite (render_all_off fmt_v (clock i) alert ty Hty). cbn [String.eqb]. unfold ret.
    apply IH.
  - intros good bad rest i written Hgood Hbad. revert i written.
    induction Hgood as [|alert alerts Ha Hall IH]; intros i written.
    + exists []. cbn [app Waze.send_events]. unfold bind, lift.
      rewrite (render_without_type fmt_v all_on (clock i) bad Hbad).
      by rewrite app_nil_r.
    + cbn [app Waze.send_events]. unfold bind, lift.
      destruct (render_all_on fmt_v (clock i) alert Ha) as (message & -> & ->).
      unfold modify.
      destruct (IH (S i) (written ++ ["data: " +:+ message +:+ nl +:+ nl]))
        as (events & -> & Hlen).
      exists (("data: " +:+ message +:+ nl +:+ nl) :: events).
      rewrite <- app_assoc. split; [done|]. cbn [length]. by rewrite Hlen.
Qed.

Lemma send_events_replays_the_log_witness :
  exists events,
    Waze.send_events (fun _ => "") all_on
      (fun _ => {| Waze.now := {| unixNano := 0; Location := 0 |};
                   Waze.range := map_to_list |})
      0 [ {[ "uuid" := VString "a1"; "type" := VString "JAM" ]} ] []
    = ([] ++ events, Ok tt) /\
    length events = length [ ({[ "uuid" := VString "a1"; "type" := VString "JAM" ]}
                              : gmap string value) ].
Proof.
  refine (proj1 (send_events_replays_the_log _ _) _ _ _ _).
  repeat constructor. exists "JAM". split; [reflexivity|]. intros H. discriminate H.
Defined.

(** ** Classification and the field dump *)

Lemma formatAlertData_foldl fmt_v entries acc :
  foldl (fun sb kv => sb +:+ (kv.1 +:+ ": " +:+ fmt_v kv.2 +:+ nl)) acc entries
  = acc +:+ Bot.formatAlertData fmt_v entries.
Proof.
  unfold Bot.formatAlertData. revert acc.
  induction entries as [|kv entries IH]; intros acc; cbn [foldl].
  - by rewrite string_append_nil_r.
  - rewrite IH. rewrite (IH ("" +:+ _)). by rewrite !string_append_assoc.
Qed.

Lemma formatAlertData_app fmt_v l1 l2 :
  Bot.formatAlertData fmt_v (l1 ++ l2)
  = Bot.formatAlertData fmt_v l1 +:+ Bot.formatAlertData fmt_v l2.
Proof.
  unfold Bot.formatAlertData at 1 2. rewrite foldl_app. apply formatAlertData_foldl.
Qed.

(** X18. The dump of an alert has the line "key: value" of every field
    the iteration visits, in the order it visits them; both entry points
    build it alike, and the message for an alert of unknown type carries
    it, so it shows every field of the alert when the iteration is over
    the alert's map. *)
Theorem formatAlertData_lists_every_field (fmt_v : value -> string) :
  (forall entries, Waze.formatAlertData fmt_v entries = Bot.formatAlertData fmt_v entries) /\
  (forall pre k v post,
     Bot.formatAlertData fmt_v (pre ++ (k, v) :: post)
     = Bot.formatAlertData fmt_v pre +:+ (k +:+ ": " +:+ fmt_v v +:+ nl)
       +:+ Bot.formatAlertData fmt_v post) /\
  (forall (alert : gmap string value) range k v,
     range alert ≡ₚ map_to_list alert ->
     alert !! k = Some v ->
     exists message,
       Bot.handleUnknownAlert fmt_v (range alert) = [Message message] /\
       contains message (k +:+ ": " +:+ fmt_v v +:+ nl)).
Proof.
  split; [done|]. split.
  - intros pre k v post. rewrite formatAlertData_app. f_equal.
    change ((k, v) :: post) with ([(k, v)] ++ post). rewrite formatAlertData_app.
    f_equal.
  - intros alert range k v Hperm Hk.
    assert (Hin : (k, v) ∈ range alert).
    { rewrite Hperm. by apply elem_of_map_to_list. }
    apply list_elem_of_split in Hin as (pre & post & Hsplit).
    eexists. split; [done|]. rewrite Hsplit, formatAlertData_app.
    change ((k, v) :: post) with ([(k, v)] ++ post). rewrite formatAlertData_app.
    exists ("🤖 Tipo de notificação desconhecida" +:+ nl +:+ "```"
            +:+ Bot.formatAlertData fmt_v pre),
           (Bot.formatAlertData fmt_v post +:+ "```").
    change (Bot.formatAlertData fmt_v [(k, v)]) with ("" +:+ (k +:+ ": " +:+ fmt_v v +:+ nl)).
    cbn [String.append]. by rewrite !string_append_assoc.
Qed.

Lemma formatAlertData_lists_every_field_witness :
  exists message,
    Bot.handleUnknownAlert (fun _ => "v") (map_to_list {[ "speed" := VFloat64 3 ]})
    = [Message message] /\
    contains message ("speed" +:+ ": " +:+ "v" +:+ nl).
Proof.
  refine (proj2 (proj2 (formatAlertData_lists_every_field (fun _ => "v")))
            {[ "speed" := VFloat64 3 ]} map_to_list "speed" (VFloat64 3) _ _).
  - reflexivity.
  - reflexivity.
Defined.

(** X19. The bot classifies by the exact text of the type: POLICE and
    POLICEMAN give the same police message, JAM and ACCIDENT theirs, and
    every other text but CHIT_CHAT (the empty text and other spellings of
    the known ones included) gives the unknown-type message with the dump;
    none of these can fail, whatever else the alert holds. *)
Theorem handleAlert_classifies (fmt_v : value -> string)
    (range : gmap string value -> list (string * value)) (alert : gmap string value)
    (ty : string) :
  alert !! "type" = Some (VString ty) ->
  (ty = "POLICE" \/ ty = "POLICEMAN" ->
   Bot.handleAlert fmt_v range (VMap alert) = Ok [Message "📢 Polícia 🚓"]) /\
  (ty = "JAM" ->
   Bot.handleAlert fmt_v range (VMap alert)
   = Ok [Message "📢 Congestionamento 🚗🚕🚙";
         Printed "Jam Alert: 📢 Congestionamento 🚗🚕🚙"]) /\
  (ty = "ACCIDENT" ->
   Bot.handleAlert fmt_v range (VMap alert) = Ok [Message "📢 Acidente 🚙💥🚕"]) /\
  (ty <> "CHIT_CHAT" -> ty <> "POLICE" -> ty <> "POLICEMAN" -> ty <> "JAM" ->
   ty <> "ACCIDENT" ->
   Bot.handleAlert fmt_v range (VMap alert)
   = Ok (Bot.handleUnknownAlert fmt_v (range alert))) /\
  (ty <> "CHIT_CHAT" -> is_ok (Bot.handleAlert fmt_v range (VMap alert)) = true).
Proof.
  intros Hty. unfold Bot.handleAlert, rbind, assert_map, index. rewrite Hty. simpl.
  split; [|split; [|split; [|split]]].
  - by intros [-> | ->].
  - by intros ->.
  - by intros ->.
  - intros H1 H2 H3 H4 H5.
    apply String.eqb_neq in H1, H2, H3, H4, H5. by rewrite H1, H2, H3, H4, H5.
  - intros H1. apply String.eqb_neq in H1. rewrite H1.
    destruct (String.eqb ty "POLICE" || String.eqb ty "POLICEMAN"); [done|].
    destruct (String.eqb ty "JAM"); [done|].
    by destruct (String.eqb ty "ACCIDENT").
Qed.

Lemma handleAlert_classifies_witness :
  Bot.handleAlert (fun _ => "") map_to_list
                  (VMap {[ "uuid" := VString "a2"; "type" := VString "POLICEMAN" ]})
  = Ok [Message "📢 Polícia 🚓"].
Proof.
  refine (proj1 (handleAlert_classifies (fun _ => "") map_to_list
                   {[ "uuid" := VString "a2"; "type" := VString "POLICEMAN" ]}
                   "POLICEMAN" _) _).
  - reflexivity.
  - right. reflexivity.
Defined.

(** ** Fetching *)

(** X20. What the entry points do with a decoded response, by the shape of
    its "alerts": when the key is missing every one of them logs and
    returns; when it holds an array they process it; when it holds
    something else (null, an object) [getUpdates] of waze.go and of the bot
    panics on the unchecked assertion, while [processData] of the bot logs
    and returns and that of the channel entry point returns without a
    word. *)
Theorem getUpdates_by_payload (fmt_v : value -> string) (st : pipeline) (body : file)
    (data : gmap string value) :
  decode_response body = Some data ->
  (data !! "alerts" = None ->
   Bot.getUpdates (Response body) st
   = (record (Logged "ERROR: 'alerts' key not found in data")
             (record (Logged "getting updates") st), Ok tt) /\
   Waze.getUpdates (Response body) (st, None)
   = ((record (Logged "ERROR: 'alerts' key not found in data")
              (record (Logged "getting updates") st), None), Ok tt) /\
   Bot.processData data st
   = (record (Logged "ERROR: 'alerts' key not found or is not an array in data") st,
      Ok tt) /\
   Channel.processData data st = (record (Logged "Nenhum alerta recebido") st, Ok tt)) /\
  (forall v, data !! "alerts" = Some v -> (forall l, v <> VSlice l) ->
   Bot.getUpdates (Response body) st
   = (record (Logged "getting updates") st, Panic (InterfaceConversion v TSlice)) /\
   Waze.getUpdates (Response body) (st, None)
   = ((record (Logged "getting updates") st, None),
      Panic (InterfaceConversion v TSlice)) /\
   Bot.processData data st
   = (record (Logged "ERROR: 'alerts' key not found or is not an array in data") st,
      Ok tt) /\
   Channel.processData data st = (st, Ok tt)) /\
  (forall l, data !! "alerts" = Some (VSlice l) ->
   Bot.getUpdates (Response body) st
   = Bot.processAlerts l (record (Logged "getting updates") st) /\
   Bot.processData data st = Bot.processAlerts l st /\
   Channel.processData data st = Bot.processAlerts l st /\
   Channel.getUpdates fmt_v (Response body) st
   = Bot.processAlerts l
       (record (Logged ("Dados recebidos: " +:+ fmt_v (VMap data)))
               (record (Logged "recebendo atualizações") st))).
Proof.
  intros Hdec. split; [|split].
  - intros Hk.
    unfold Bot.getUpdates, Waze.getUpdates, Bot.processData, Channel.processData,
      Waze.on_pipeline, bind, gets, logger, modify.
    cbn [fst snd]. by rewrite Hdec, Hk.
  - intros v Hk Hv.
    unfold Bot.getUpdates, Waze.getUpdates, Bot.processData, Channel.processData,
      Waze.on_pipeline, bind, gets, logger, modify, lift.
    cbn [fst snd]. rewrite Hdec, Hk.
    destruct v as [| | | |l| | |]; try done. by destruct (Hv l).
  - intros l Hk.
    unfold Bot.getUpdates, Channel.getUpdates, Bot.processData, Channel.processData,
      bind, logger, modify, lift.
    rewrite Hdec, Hk. cbn [assert_slice]. done.
Qed.

Lemma getUpdates_by_payload_witness :
  Bot.processData {[ "alerts" := VNil ]} (fresh (NewSet []))
  = (record (Logged "ERROR: 'alerts' key not found or is not an array in data")
            (fresh (NewSet [])), Ok tt) /\
  Bot.getUpdates (Response (Document (JObject [("alerts", JNull)]))) (fresh (NewSet []))
  = (record (Logged "getting updates") (fresh (NewSet [])),
     Panic (InterfaceConversion VNil TSlice)).
Proof.
  destruct (getUpdates_by_payload (fun _ => "") (fresh (NewSet []))
              (Document (JObject [("alerts", JNull)])) {[ "alerts" := VNil ]} eq_refl)
    as (_ & H & _).
  destruct (H VNil eq_refl ltac:(discriminate)) as (H1 & _ & H3 & _).
  split; [exact H3 | exact H1].
Defined.

Lemma for_range_step_all_seen disp l st :
  Forall (fun alert => is_ok (alert_id alert) = true) l ->
  alert_ids l ⊆ set_data (processedAlerts st) ->
  for_range l (step disp) st = (st, Ok tt).
Proof.
  intros Hl. revert st. induction Hl as [|alert l Ha Hl IH]; intros st Hsub; [done|].
  cbn [for_range]. unfold bind, alert_ids in *. cbn [omap list_omap] in Hsub.
  unfold alert_id, rbind in Ha, Hsub.
  destruct alert as [| | | | |m| |]; try done. cbn [assert_map step] in *.
  destruct (index m "uuid") as [| | |id| | | |]; try done. cbn [assert_string] in Hsub.
  unfold Set_Has. rewrite bool_decide_eq_true_2 by set_solver.
  apply IH. set_solver.
Qed.

Lemma getUpdates_hit resp st l :
  Waze.getUpdates resp (st, Some (VSlice l))
  = (((Waze.processAlerts l (record (Logged "getting updates") st)).1, Some (VSlice l)),
     (Waze.processAlerts l (record (Logged "getting updates") st)).2).
Proof.
  unfold Waze.getUpdates, Waze.on_pipeline, bind, gets, logger, modify, lift.
  cbn [fst snd assert_slice].
  by destruct (Waze.processAlerts l (record (Logged "getting updates") st)).
Qed.

Lemma getUpdates_miss body data st l :
  decode_response body = Some data -> data !! "alerts" = Some (VSlice l) ->
  Waze.getUpdates (Response body) (st, None)
  = (((Waze.processAlerts l (record (Logged "getting updates") st)).1, Some (VSlice l)),
     (Waze.processAlerts l (record (Logged "getting updates") st)).2).
Proof.
  intros Hd Hk.
  unfold Waze.getUpdates, Waze.on_pipeline, bind, gets, logger, modify, lift.
  cbn [fst snd]. rewrite Hd, Hk. cbn [fst snd assert_slice].
  by destruct (Waze.processAlerts l (record (Logged "getting updates") st)).
Qed.

(** X21. While the cache of waze.go holds a batch, [getUpdates] does not
    look at the feed: after a call that fetched a batch of records with
    identifiers and stored it, a second call, whatever the feed would
    answer (a failure or new alerts included), processes the stored batch
    again, sends nothing, and leaves the set and the cache as they
    were. *)
Theorem getUpdates_cache_hit (body : file) (data : gmap string value) (l : list value)
    (seen : StrSet) (resp : http_result) :
  decode_response body = Some data ->
  data !! "alerts" = Some (VSlice l) ->
  Forall (fun alert => is_ok (alert_id alert) = true) l ->
  let r1 := Waze.getUpdates (Response body) (fresh seen, None) in
  let r2 := Waze.getUpdates resp r1.1 in
  r1.2 = Ok tt /\ r1.1.2 = Some (VSlice l) /\
  r2.2 = Ok tt /\ r2.1.2 = Some (VSlice l) /\
  processedAlerts r2.1.1 = processedAlerts r1.1.1 /\
  trace r2.1.1
  = trace r1.1.1 ++ [Logged "getting updates"; Logged "processando alertas"].
Proof.
  intros Hd Hk Hl r1 r2. subst r2 r1.
  rewrite (getUpdates_miss body data _ l Hd Hk). cbn [fst snd].
  rewrite getUpdates_hit. cbn [fst snd].
  rewrite !Waze_processAlerts_step.
  set (st1 := record (Logged "processando alertas")
                (record (Logged "getting updates") (fresh seen))).
  destruct (for_range_step_ok Sent l st1 Hl) as [Hr1 Hs1].
  set (st1' := (for_range l (step Sent) st1).1) in *.
  set (st2 := record (Logged "processando alertas")
                (record (Logged "getting updates") st1')).
  assert (H2 : for_range l (step Sent) st2 = (st2, Ok tt)).
  { apply for_range_step_all_seen; [done|].
    change (processedAlerts st2) with (processedAlerts st1'). rewrite Hs1. set_solver. }
  rewrite H2. cbn [fst snd]. repeat split; try done.
  subst st2. unfold record. cbn [trace]. by rewrite <- app_assoc.
Qed.

Lemma getUpdates_cache_hit_witness :
  (Waze.getUpdates GetError
     (Waze.getUpdates
        (Response (Document (JObject [("alerts",
                                       JArray [JObject [("uuid", JString "a1")]])])))
        (fresh (NewSet []), None)).1).2 = Ok tt.
Proof.
  refine (proj1 (proj2 (proj2 (getUpdates_cache_hit
            (Document (JObject [("alerts", JArray [JObject [("uuid", JString "a1")]])]))
            {[ "alerts" := VSlice [VMap {[ "uuid" := VString "a1" ]}] ]}
            [VMap {[ "uuid" := VString "a1" ]}] (NewSet []) GetError _ _ _)))).
  - reflexivity.
  - reflexivity.
  - repeat constructor.
Defined.
